(** * Verification of the wavelet / DCT processing core

    Shallow embedding of [prezentare_wavelet/src]: [dct.py], [wavelets.py],
    [denoising.py] and [metrics.py].

    Number model.  The Python code computes on numpy [float64] arrays.
    - The JPEG quantization table is a finite object (64 entries for each
      quality); it is computed here in IEEE binary64 arithmetic, with the
      kernel's primitive floats, operation by operation as numpy does.
    - Arithmetic on image samples and transform coefficients is idealised
      over the real numbers [R]: a statement proved here holds for the
      code up to floating-point rounding.  Where the truth of a statement
      rests on a test against zero, on an infinity or on a NaN, its
      hypotheses keep the binary64 computation of the code away from
      overflow and underflow (8-bit samples, bounded parameters), and
      the values numpy and PyWavelets produce there (NaN, infinities,
      exceptions) are modelled as such. *)

From Stdlib Require Import ZArith QArith Qround List Bool Lia Lra Reals Floats.
From Stdlib Require Import String Ascii Sorted Permutation.
From stdpp Require Import base gmap strings pretty.
Import ListNotations.

(** ** Python results: a value or a raised exception *)

Inductive pyerror : Type :=
| ValueError
| ZeroDivisionError
| IndexError
| TypeError
| OverflowError
| InvalidParameter.

Inductive result (A : Type) : Type :=
| Ok (a : A)
| Raise (e : pyerror).
Arguments Ok {A} a.
Arguments Raise {A} e.

#[global] Instance result_ret : MRet result := fun _ a => Ok a.

#[global] Instance result_bind : MBind result := fun _ _ k m =>
  match m with
  | Ok a => k a
  | Raise e => Raise e
  end.

(** ** Binary64 helpers *)

Module F64.

(** A Python [int] or an integer literal converted to [float64]. *)
Definition of_Z (z : Z) : float :=
  SF2Prim (binary_normalize 53 1024 z 0 false).

(** [np.floor] of a finite double, as the integer it denotes; [None] for
    NaN and the infinities. *)
Definition floor (x : float) : option Z :=
  match Prim2SF x with
  | S754_zero _ => Some 0%Z
  | S754_finite s m e =>
      let v := if s then Z.neg m else Z.pos m in
      Some (if (0 <=? e)%Z then (v * 2 ^ e)%Z else (v / 2 ^ (- e))%Z)
  | S754_infinity _ => None
  | S754_nan => None
  end.

End F64.

(** ** numpy arrays over the reals *)

Module Np.

Open Scope R_scope.

(** A 2-D [ndarray]: its shape and its entries.  Entries outside the
    shape are never read by the operations below. *)
Record ndarray : Type := mk_array {
  rows : nat;
  cols : nat;
  at_ : nat -> nat -> R
}.

(** A [float64] result that may be infinite or NaN. *)
Inductive pyfloat : Type :=
| Fin (r : R)
| PInf
| NInf
| NaN.

(** [sum_upto n f = f 0 + ... + f (n - 1)]. *)
Fixpoint sum_upto (n : nat) (f : nat -> R) : R :=
  match n with
  | O => 0
  | S k => sum_upto k f + f k
  end.

(** [np.sum] over all entries. *)
Definition np_sum (a : ndarray) : R :=
  sum_upto (rows a) (fun i => sum_upto (cols a) (fun j => at_ a i j)).

Definition size (a : ndarray) : nat := (rows a * cols a)%nat.

(** [np.mean]: NaN (with a warning) on an empty array. *)
Definition np_mean (a : ndarray) : pyfloat :=
  if (size a =? 0)%nat then NaN else Fin (np_sum a / INR (size a)).

(** Broadcasting of one dimension: equal, or one of them is 1. *)
Definition bdim (n m : nat) : option nat :=
  if (n =? m)%nat then Some n
  else if (n =? 1)%nat then Some m
  else if (m =? 1)%nat then Some n
  else None.

Definition bidx (n i : nat) : nat := if (n =? 1)%nat then O else i.

(** An elementwise binary operation, with numpy's broadcasting. *)
Definition np_binop (f : R -> R -> R) (a b : ndarray) : result ndarray :=
  match bdim (rows a) (rows b), bdim (cols a) (cols b) with
  | Some h, Some w =>
      Ok (mk_array h w (fun i j =>
            f (at_ a (bidx (rows a) i) (bidx (cols a) j))
              (at_ b (bidx (rows b) i) (bidx (cols b) j))))
  | _, _ => Raise ValueError
  end.

Definition np_sub : ndarray -> ndarray -> result ndarray := np_binop Rminus.

(** An elementwise unary operation. *)
Definition np_map (f : R -> R) (a : ndarray) : ndarray :=
  mk_array (rows a) (cols a) (fun i j => f (at_ a i j)).

(** [a ** 2]. *)
Definition np_square : ndarray -> ndarray := np_map (fun x => x * x).

(** [np.log10] of a real: [-inf] at zero, NaN below. *)
Definition np_log10 (x : R) : pyfloat :=
  if Rlt_dec 0 x then Fin (ln x / ln 10)
  else if Req_dec_T x 0 then NInf else NaN.

(** [10 * y]. *)
Definition times10 (y : pyfloat) : pyfloat :=
  match y with
  | Fin r => Fin (10 * r)
  | other => other
  end.

(** Two arrays have the same shape. *)
Definition same_shape (a b : ndarray) : Prop :=
  rows a = rows b /\ cols a = cols b.

(** Every entry inside the shape is zero. *)
Definition is_zero (a : ndarray) : Prop :=
  forall i j, (i < rows a)%nat -> (j < cols a)%nat -> at_ a i j = 0.

Lemma bdim_same n : bdim n n = Some n.
Proof. unfold bdim. rewrite Nat.eqb_refl. reflexivity. Qed.

Lemma bidx_lt n i : (i < n)%nat -> bidx n i = i.
Proof.
  unfold bidx. intros H. destruct (Nat.eqb_spec n 1); [lia | reflexivity].
Qed.

Lemma sum_upto_ext n f g :
  (forall i, (i < n)%nat -> f i = g i) -> sum_upto n f = sum_upto n g.
Proof.
  induction n as [|n IH]; intros H; simpl; [reflexivity|].
  rewrite IH, H by (intros; try apply H; lia). reflexivity.
Qed.

Lemma sum_upto_nonneg n f :
  (forall i, (i < n)%nat -> 0 <= f i) -> 0 <= sum_upto n f.
Proof.
  induction n as [|n IH]; intros H; simpl; [lra|].
  assert (0 <= sum_upto n f) by (apply IH; intros; apply H; lia).
  assert (0 <= f n) by (apply H; lia). lra.
Qed.

(** A sum of non-negative terms is zero only if every term is. *)
Lemma sum_upto_zero n f :
  (forall i, (i < n)%nat -> 0 <= f i) ->
  sum_upto n f = 0 -> forall i, (i < n)%nat -> f i = 0.
Proof.
  induction n as [|n IH]; intros Hpos Hsum i Hi; [lia|].
  simpl in Hsum.
  assert (0 <= sum_upto n f) by (apply sum_upto_nonneg; intros; apply Hpos; lia).
  assert (0 <= f n) by (apply Hpos; lia).
  destruct (Nat.eq_dec i n) as [->|Hne]; [lra|].
  apply IH; [intros; apply Hpos; lia | lra | lia].
Qed.

Lemma sum_upto_all_zero n f :
  (forall i, (i < n)%nat -> f i = 0) -> sum_upto n f = 0.
Proof.
  induction n as [|n IH]; intros H; simpl; [reflexivity|].
  rewrite IH, H by (intros; try apply H; lia). lra.
Qed.

(** The sum of the squares of an array is zero exactly when the array is. *)
Lemma np_sum_square_zero (a : ndarray) :
  np_sum (np_square a) = 0 <-> is_zero a.
Proof.
  unfold np_sum, np_square, np_map, is_zero. simpl. split.
  - intros H i j Hi Hj.
    assert (Hrow : sum_upto (cols a) (fun j => at_ a i j * at_ a i j) = 0).
    { apply (sum_upto_zero (rows a)
               (fun i => sum_upto (cols a) (fun j => at_ a i j * at_ a i j)));
        [|exact H|exact Hi].
      intros i' _. apply sum_upto_nonneg. intros j' _. nra. }
    assert (Hsq : at_ a i j * at_ a i j = 0).
    { apply (sum_upto_zero (cols a) (fun j => at_ a i j * at_ a i j));
        [|exact Hrow|exact Hj].
      intros j' _. nra. }
    nra.
  - intros H. apply sum_upto_all_zero. intros i Hi.
    apply sum_upto_all_zero. intros j Hj. rewrite (H i j Hi Hj). lra.
Qed.

(** The entries of an array in row-major order ([a.ravel()]). *)
Definition entries (a : ndarray) : list R :=
  flat_map (fun i => map (at_ a i) (seq 0 (cols a))) (seq 0 (rows a)).

Lemma entries_in (a : ndarray) (i j : nat) :
  (i < rows a)%nat -> (j < cols a)%nat -> In (at_ a i j) (entries a).
Proof.
  intros Hi Hj. unfold entries. apply in_flat_map. exists i. split.
  - apply in_seq. lia.
  - apply in_map. apply in_seq. lia.
Qed.

Lemma in_entries (a : ndarray) (y : R) :
  In y (entries a) ->
  exists i j, (i < rows a)%nat /\ (j < cols a)%nat /\ y = at_ a i j.
Proof.
  unfold entries. intros H. apply in_flat_map in H as (i & Hi & Hy).
  apply in_map_iff in Hy as (j & <- & Hj).
  apply in_seq in Hi, Hj. exists i, j. repeat split; lia.
Qed.

Lemma entries_length (a : ndarray) : length (entries a) = size a.
Proof.
  unfold entries, size. generalize 0%nat at 2.
  induction (rows a) as [|n IH]; intros s; cbn [seq flat_map]; [reflexivity|].
  rewrite length_app, length_map, length_seq, IH. lia.
Qed.
End Np.

(** ** dct.py: the quantization table *)

Module Dct.

Open Scope Z_scope.

(** Standard JPEG luminance quantization table ([Q50] in [quantize_dct]
    and [dequantize_dct]). *)
Definition Q50 : list (list Z) :=
  [ [16; 11; 10; 16; 24; 40; 51; 61];
    [12; 12; 14; 19; 26; 58; 60; 55];
    [14; 13; 16; 24; 40; 57; 69; 56];
    [14; 17; 22; 29; 51; 87; 80; 62];
    [18; 22; 37; 56; 68; 109; 103; 77];
    [24; 35; 55; 64; 81; 104; 113; 92];
    [49; 64; 78; 87; 103; 121; 120; 101];
    [72; 92; 95; 98; 112; 100; 103; 99] ].

(** [np.clip(x, lo, hi)] on integer-valued entries. *)
Definition np_clip (x lo hi : Z) : Z := Z.min (Z.max x lo) hi.

(** [scale = 5000 / quality if quality < 50 else 200 - 2 * quality].
    Python's [/] on two ints is true division, and raises on zero. *)
Definition quality_scale (quality : Z) : result float :=
  if quality <? 50 then
    if quality =? 0 then Raise ZeroDivisionError
    else Ok (PrimFloat.div (F64.of_Z 5000) (F64.of_Z quality))
  else Ok (F64.of_Z (200 - 2 * quality)).

(** One entry of [np.clip(np.floor((Q50 * scale + 50) / 100), 1, 255)].
    The floor of a double that is NaN or infinite stays what it was and
    [np.clip] sends it to a bound or keeps NaN; this never happens for a
    finite scale and is mapped to the upper bound. *)
Definition quant_entry (scale : float) (b : Z) : Z :=
  let x := PrimFloat.div
             (PrimFloat.add (PrimFloat.mul (F64.of_Z b) scale) (F64.of_Z 50))
             (F64.of_Z 100) in
  match F64.floor x with
  | Some z => np_clip z 1 255
  | None => 255
  end.

(** The table [Q] that [quantize_dct] and [dequantize_dct] build. *)
Definition quant_table (quality : Z) : result (list (list Z)) :=
  scale ← quality_scale quality;
  Ok (map (map (quant_entry scale)) Q50).

(** Entry [(i, j)] of a table; [0] outside it. *)
Definition table_at (t : list (list Z)) (i j : nat) : Z :=
  nth j (nth i t []) 0.

(** Spec-side definition, following the words of the specification of
    [buildQuantizationTable]: scale factor [5000/quality] below 50 and
    [200 - 2*quality] otherwise, entry
    [clamp(floor((base*scale+50)/100), 1, 255)], in exact rational
    arithmetic. *)
Definition spec_scale (quality : Z) : Q :=
  if quality <? 50 then Qdiv (inject_Z 5000) (inject_Z quality)
  else inject_Z (200 - 2 * quality).

Definition spec_entry (quality b : Z) : Z :=
  np_clip
    (Qfloor (Qdiv (Qplus (Qmult (inject_Z b) (spec_scale quality)) (inject_Z 50))
                  (inject_Z 100)))
    1 255.

Definition buildQuantizationTable (quality : Z) : list (list Z) :=
  map (map (spec_entry quality)) Q50.

(** The qualities of the contract, [1..100]. *)
Definition qualities : list Z := map Z.of_nat (seq 1 100).

Lemma qualities_spec (q : Z) : 1 <= q <= 100 -> In q qualities.
Proof.
  intros Hq. unfold qualities.
  replace q with (Z.of_nat (Z.to_nat q)) by lia.
  apply in_map, in_seq. lia.
Qed.

(** A decidable property checked on every quality holds on [1..100]. *)
Lemma for_all_qualities (P : Z -> bool) :
  forallb P qualities = true ->
  forall q, 1 <= q <= 100 -> P q = true.
Proof.
  intros Hall q Hq.
  rewrite forallb_forall in Hall. apply Hall, qualities_spec, Hq.
Qed.

Definition table_eqb (t1 t2 : list (list Z)) : bool := bool_decide (t1 = t2).

Lemma table_eqb_eq t1 t2 : table_eqb t1 t2 = true -> t1 = t2.
Proof. unfold table_eqb. apply bool_decide_eq_true_1. Qed.

(** The code's table, computed in binary64, is the spec's table computed
    exactly: rounding never moves a quotient across an integer. *)
Lemma quant_table_refines (quality : Z) :
  1 <= quality <= 100 ->
  quant_table quality = Ok (buildQuantizationTable quality).
Proof.
  intros Hq.
  pose (P := fun q => match quant_table q with
                      | Ok t => table_eqb t (buildQuantizationTable q)
                      | Raise _ => false
                      end).
  assert (H : P quality = true).
  { apply for_all_qualities; [vm_compute; reflexivity | exact Hq]. }
  unfold P in H. destruct (quant_table quality) as [t|e]; [|discriminate].
  apply table_eqb_eq in H. congruence.
Qed.

(** Pointwise order on tables. *)
Definition table_le (t1 t2 : list (list Z)) : Prop :=
  Forall2 (Forall2 Z.le) t1 t2.

#[global] Instance table_le_dec t1 t2 : Decision (table_le t1 t2).
Proof. unfold table_le. apply _. Defined.

Lemma table_le_at t1 t2 i j :
  table_le t1 t2 -> table_at t1 i j <= table_at t2 i j.
Proof.
  unfold table_le, table_at. intros H.
  revert i. induction H as [|r1 r2 t1 t2 Hr _ IH]; intros i.
  - destruct i, j; simpl; lia.
  - destruct i as [|i]; [|apply IH]. simpl.
    clear IH. revert j. induction Hr as [|x y r1 r2 Hxy _ IHr]; intros j.
    + destruct j; simpl; lia.
    + destruct j as [|j]; [exact Hxy | apply IHr].
Qed.

(** [quant_table] at [q + 1] is pointwise below [quant_table] at [q]. *)
Definition step_ordered (q : Z) : bool :=
  match quant_table q, quant_table (q + 1) with
  | Ok t1, Ok t2 => bool_decide (table_le t2 t1)
  | _, _ => false
  end.

Lemma step_ordered_all : forallb step_ordered (map Z.of_nat (seq 1 99)) = true.
Proof. vm_compute. reflexivity. Qed.

Lemma step_ordered_spec (q : Z) :
  1 <= q <= 99 ->
  exists t1 t2, quant_table q = Ok t1 /\ quant_table (q + 1) = Ok t2 /\
                table_le t2 t1.
Proof.
  intros Hq.
  assert (H : step_ordered q = true).
  { pose proof step_ordered_all as Hall. rewrite forallb_forall in Hall.
    apply Hall. replace q with (Z.of_nat (Z.to_nat q)) by lia.
    apply in_map, in_seq. lia. }
  unfold step_ordered in H.
  destruct (quant_table q) as [t1|]; [|discriminate].
  destruct (quant_table (q + 1)) as [t2|]; [|discriminate].
  exists t1, t2. repeat split. apply bool_decide_eq_true_1 in H. exact H.
Qed.

(** Monotonicity over a distance of [n] qualities, by induction on [n]. *)
Lemma quant_table_monotone_nat (n : nat) (q1 : Z) (i j : nat) :
  1 <= q1 -> q1 + Z.of_nat n <= 100 ->
  exists t1 t2, quant_table q1 = Ok t1 /\
                quant_table (q1 + Z.of_nat n) = Ok t2 /\
                table_at t2 i j <= table_at t1 i j.
Proof.
  induction n as [|n IH]; intros H1 H2.
  - rewrite Z.add_0_r. eexists _, _.
    split; [apply quant_table_refines; lia|].
    split; [apply quant_table_refines; lia|]. lia.
  - destruct IH as (t1 & t2 & Ht1 & Ht2 & Hle); [lia | lia |].
    destruct (step_ordered_spec (q1 + Z.of_nat n)) as (t2' & t3 & Ht2' & Ht3 & Hs);
      [lia|].
    assert (t2' = t2) by congruence. subst t2'.
    replace (q1 + Z.of_nat (S n)) with (q1 + Z.of_nat n + 1) by lia.
    exists t1, t3. repeat split; auto.
    pose proof (table_le_at t3 t2 i j Hs). lia.
Qed.

(** C3. For every quality in [1, 100] the table that [quantize_dct]
    builds (in binary64 arithmetic) is the table of the specification:
    scale [5000/quality] below 50 and [200 - 2*quality] from 50 on, entry
    [clamp(floor((base*scale+50)/100), 1, 255)] over the JPEG luminance
    table.  At quality 50 it is the base table itself, and entry [0][0]
    at quality 1 is strictly larger than at quality 100. *)
Theorem quantization_table_construction (quality : Z) :
  1 <= quality <= 100 ->
  quant_table quality = Ok (buildQuantizationTable quality)
  /\ quant_table 50 = Ok Q50
  /\ (exists t1 t100, quant_table 1 = Ok t1 /\ quant_table 100 = Ok t100 /\
                      table_at t100 0 0 < table_at t1 0 0).
Proof.
  intros Hq. split; [apply quant_table_refines, Hq|]. split.
  - vm_compute. reflexivity.
  - eexists _, _. split; [vm_compute; reflexivity|].
    split; [vm_compute; reflexivity|]. vm_compute. reflexivity.
Qed.

Lemma quantization_table_construction_witness :
  quant_table 75 = Ok (buildQuantizationTable 75)
  /\ quant_table 50 = Ok Q50
  /\ (exists t1 t100, quant_table 1 = Ok t1 /\ quant_table 100 = Ok t100 /\
                      table_at t100 0 0 < table_at t1 0 0).
Proof. apply (quantization_table_construction 75). lia. Defined.

(** C4. For qualities [q1 <= q2] in [1, 100] and every position [(i, j)],
    the divisor for [q1] is at least the divisor for [q2]: lower quality
    never yields a smaller divisor. *)
Theorem quantization_table_monotone (q1 q2 : Z) (i j : nat) :
  1 <= q1 -> q1 <= q2 -> q2 <= 100 ->
  exists t1 t2, quant_table q1 = Ok t1 /\ quant_table q2 = Ok t2 /\
                table_at t2 i j <= table_at t1 i j.
Proof.
  intros H1 H12 H2.
  replace q2 with (q1 + Z.of_nat (Z.to_nat (q2 - q1))) by lia.
  apply quant_table_monotone_nat; lia.
Qed.

Lemma quantization_table_monotone_witness :
  exists t1 t2, quant_table 10 = Ok t1 /\ quant_table 90 = Ok t2 /\
                table_at t2 3 5 <= table_at t1 3 5.
Proof. apply (quantization_table_monotone 10 90 3 5); lia. Defined.

End Dct.

(** ** dct.py: the block loop shared by the four block functions *)

Module Blocks.

Import Np.
Open Scope nat_scope.

(** [pad = (block_size - n % block_size) % block_size]. *)
Definition pad_of (n block_size : nat) : nat :=
  (block_size - n mod block_size) mod block_size.

(** [np.pad(img, ((0, pad_h), (0, pad_w)), mode='constant')]. *)
Definition np_pad_constant (img : ndarray) (pad_h pad_w : nat) : ndarray :=
  mk_array (rows img + pad_h) (cols img + pad_w)
    (fun i j => if (i <? rows img) && (j <? cols img) then at_ img i j else 0%R).


(** [np.zeros_like(img)]. *)
Definition np_zeros_like (img : ndarray) : ndarray :=
  mk_array (rows img) (cols img) (fun _ _ => 0%R).

(** [img[i:i+h, j:j+w]] for a slice that lies inside the array. *)
Definition slice (img : ndarray) (i j h w : nat) : ndarray :=
  mk_array h w (fun r c => at_ img (i + r) (j + c)).

(** [result[:h, :w]]. *)
Definition crop (a : ndarray) (h w : nat) : ndarray :=
  mk_array (Nat.min h (rows a)) (Nat.min w (cols a)) (at_ a).

Definition covers (start len x : nat) : bool :=
  (start <=? x) && (x <? start + len).

(** [result[i:i+bs, j:j+bs] = v]: numpy raises when [v] does not have
    the shape of the slot. *)
Definition set_block (res : ndarray) (i j bs : nat) (v : ndarray)
  : result ndarray :=
  if (rows v =? bs) && (cols v =? bs) then
    Ok (mk_array (rows res) (cols res)
          (fun r c => if covers i bs r && covers j bs c
                      then at_ v (r - i) (c - j) else at_ res r c))
  else Raise ValueError.

(** [range(0, stop, step)] for a positive step. *)
Definition py_range (stop step : nat) : list nat :=
  map (fun k => k * step) (seq 0 ((stop + step - 1) / step)).

Section Loop.

(** The computation applied to each block. *)
Variable F : ndarray -> result ndarray.
Variable img : ndarray.
Variable bs : nat.

(** [for j in range(0, img.shape[1], block_size)]. *)
Fixpoint loop_j (i : nat) (js : list nat) (res : ndarray) : result ndarray :=
  match js with
  | [] => Ok res
  | j :: js' =>
      v ← F (slice img i j bs bs);
      res' ← set_block res i j bs v;
      loop_j i js' res'
  end.

(** [for i in range(0, img.shape[0], block_size)]. *)
Fixpoint loop_i (ys js : list nat) (res : ndarray) : result ndarray :=
  match ys with
  | [] => Ok res
  | i :: ys' =>
      res' ← loop_j i js res;
      loop_i ys' js res'
  end.

(** The block loop on an image whose sides are multiples of the block
    size. *)
Definition blockwise : result ndarray :=
  loop_i (py_range (rows img) bs) (py_range (cols img) bs) (np_zeros_like img).

(** The start, among [starts], of the block written last over [x]. *)
Fixpoint cover (starts : list nat) (x : nat) : option nat :=
  match starts with
  | [] => None
  | s :: rest =>
      match cover rest x with
      | Some s' => Some s'
      | None => if covers s bs x then Some s else None
      end
  end.

(** What [F] returns on each block: an array [G i j] of the block's
    shape. *)
Variable G : nat -> nat -> ndarray.
Hypothesis F_ok : forall i j, F (slice img i j bs bs) = Ok (G i j).
Hypothesis G_rows : forall i j, rows (G i j) = bs.
Hypothesis G_cols : forall i j, cols (G i j) = bs.

Lemma loop_j_spec (i : nat) (js : list nat) :
  forall res, exists res',
    loop_j i js res = Ok res'
    /\ rows res' = rows res /\ cols res' = cols res
    /\ forall r c,
         at_ res' r c =
         match (if covers i bs r then cover js c else None) with
         | Some j => at_ (G i j) (r - i) (c - j)
         | None => at_ res r c
         end.
Proof.
  induction js as [|j js IH]; intros res.
  - exists res. repeat split; try reflexivity.
    intros r c. simpl. destruct (covers i bs r); reflexivity.
  - cbn [loop_j]. rewrite F_ok. cbn [mbind result_bind].
    unfold set_block. rewrite G_rows, G_cols, Nat.eqb_refl.
    cbn [andb mbind result_bind].
    match goal with |- context [loop_j i js ?x] => set (res1 := x) end.
    destruct (IH res1) as (res' & Hrun & Hr & Hc & Hat).
    exists res'. split; [exact Hrun|]. split; [rewrite Hr; reflexivity|].
    split; [rewrite Hc; reflexivity|].
    intros r c. rewrite Hat. cbn [cover].
    destruct (covers i bs r) eqn:Ei; [|simpl; rewrite Ei; reflexivity].
    destruct (cover js c) as [j'|]; [reflexivity|].
    simpl. rewrite Ei. simpl.
    destruct (covers j bs c); reflexivity.
Qed.

Lemma loop_i_spec (ys js : list nat) :
  forall res, exists res',
    loop_i ys js res = Ok res'
    /\ rows res' = rows res /\ cols res' = cols res
    /\ forall r c,
         at_ res' r c =
         match cover ys r, cover js c with
         | Some i, Some j => at_ (G i j) (r - i) (c - j)
         | _, _ => at_ res r c
         end.
Proof.
  induction ys as [|i ys IH]; intros res.
  - exists res. repeat split; reflexivity.
  - cbn [loop_i].
    destruct (loop_j_spec i js res) as (res1 & Hrun1 & Hr1 & Hc1 & Hat1).
    rewrite Hrun1. cbn [mbind result_bind].
    destruct (IH res1) as (res' & Hrun & Hr & Hc & Hat).
    exists res'. split; [exact Hrun|]. split; [congruence|]. split; [congruence|].
    intros r c. rewrite Hat, Hat1. cbn [cover].
    destruct (cover ys r) as [i'|], (cover js c) as [j'|], (covers i bs r);
      reflexivity.
Qed.

End Loop.

Lemma cover_app_last bs (l : list nat) (s x : nat) :
  cover bs (l ++ [s]) x = if covers s bs x then Some s else cover bs l x.
Proof.
  induction l as [|a l IH]; simpl.
  - reflexivity.
  - rewrite IH. destruct (covers s bs x); [reflexivity|].
    destruct (cover bs l x); reflexivity.
Qed.

(** Among the starts [0, bs, 2*bs, ...], the block over [x] starts at
    [x / bs * bs]. *)
Lemma cover_range bs n x :
  0 < bs -> x < n * bs ->
  cover bs (map (fun k => k * bs) (seq 0 n)) x = Some (x / bs * bs).
Proof.
  intros Hbs. induction n as [|n IH]; intros Hx; [lia|].
  rewrite seq_S, map_app. simpl map. rewrite cover_app_last.
  unfold covers.
  destruct (Nat.leb_spec (n * bs) x) as [Hge|Hlt].
  - assert (Hlt' : x < n * bs + bs) by lia.
    apply Nat.ltb_lt in Hlt'. rewrite Hlt'. simpl.
    f_equal. f_equal. apply (Nat.div_unique x bs n (x - n * bs)); lia.
  - simpl. apply IH. exact Hlt.
Qed.

Lemma py_range_multiple n bs :
  0 < bs -> py_range (n * bs) bs = map (fun k => k * bs) (seq 0 n).
Proof.
  intros Hbs. unfold py_range. f_equal. f_equal.
  symmetry. apply (Nat.div_unique (n * bs + bs - 1) bs n (bs - 1)); lia.
Qed.


(** The block loop, entry by entry: the entry at [(r, c)] comes from the
    block that starts at [(r / bs * bs, c / bs * bs)]. *)
Lemma blockwise_spec (F : ndarray -> result ndarray) (img : ndarray)
  (bs nr nc : nat) (G : nat -> nat -> ndarray) :
  0 < bs -> rows img = nr * bs -> cols img = nc * bs ->
  (forall i j, F (slice img i j bs bs) = Ok (G i j)) ->
  (forall i j, rows (G i j) = bs) ->
  (forall i j, cols (G i j) = bs) ->
  exists res,
    blockwise F img bs = Ok res
    /\ rows res = rows img /\ cols res = cols img
    /\ forall r c, r < rows img -> c < cols img ->
         at_ res r c = at_ (G (r / bs * bs) (c / bs * bs)) (r mod bs) (c mod bs).
Proof.
  intros Hbs Hr Hc HF HGr HGc. unfold blockwise.
  destruct (loop_i_spec F img bs G HF HGr HGc
              (py_range (rows img) bs) (py_range (cols img) bs)
              (np_zeros_like img)) as (res & Hrun & Hrr & Hrc & Hat).
  exists res. split; [exact Hrun|]. split; [exact Hrr|]. split; [exact Hrc|].
  intros r c Hrlt Hclt. rewrite Hat.
  rewrite Hr, Hc, !py_range_multiple by exact Hbs.
  rewrite !cover_range by (try exact Hbs; lia).
  f_equal.
  - rewrite (Nat.div_mod_eq r bs) at 1. lia.
  - rewrite (Nat.div_mod_eq c bs) at 1. lia.
Qed.

Lemma py_range_head n bs :
  0 < n -> 0 < bs -> exists rest, py_range n bs = 0 :: rest.
Proof.
  intros Hn Hbs. unfold py_range.
  assert (H : 0 < (n + bs - 1) / bs) by (apply Nat.div_str_pos; lia).
  destruct ((n + bs - 1) / bs) as [|k]; [lia|].
  simpl. eexists. reflexivity.
Qed.

(** On a non-empty image the loop reaches the first block: when that
    block fails, or its value does not fit the slot, the loop raises. *)
Lemma blockwise_first_raises (F : ndarray -> result ndarray) img bs e :
  0 < bs -> 0 < rows img -> 0 < cols img ->
  F (slice img 0 0 bs bs) = Raise e ->
  blockwise F img bs = Raise e.
Proof.
  intros Hbs Hr Hc HF. unfold blockwise.
  destruct (py_range_head (rows img) bs Hr Hbs) as [ys ->].
  destruct (py_range_head (cols img) bs Hc Hbs) as [js ->].
  cbn [loop_i loop_j]. rewrite HF. reflexivity.
Qed.

Lemma blockwise_first_misfit (F : ndarray -> result ndarray) img bs v :
  0 < bs -> 0 < rows img -> 0 < cols img ->
  F (slice img 0 0 bs bs) = Ok v ->
  rows v <> bs ->
  blockwise F img bs = Raise ValueError.
Proof.
  intros Hbs Hr Hc HF Hv. unfold blockwise.
  destruct (py_range_head (rows img) bs Hr Hbs) as [ys ->].
  destruct (py_range_head (cols img) bs Hc Hbs) as [js ->].
  cbn [loop_i loop_j]. rewrite HF. cbn [mbind result_bind].
  unfold set_block. destruct (Nat.eqb_spec (rows v) bs) as [E|_]; [contradiction|].
  reflexivity.
Qed.

End Blocks.

(** ** dct.py: quantization of a coefficient image *)

Module Quant.

Import Np Blocks.
Open Scope R_scope.

(** [np.round]: to the nearest integer, ties to the even one. *)
Definition np_rint (x : R) : Z :=
  let f := Int_part x in
  let d := x - IZR f in
  if Rlt_dec d (1 / 2) then f
  else if Rlt_dec (1 / 2) d then (f + 1)%Z
  else if Z.even f then f else (f + 1)%Z.

(** Conversion of a double to an integer type truncates towards zero. *)
Definition np_trunc (x : R) : Z :=
  if Rle_dec 0 x then Int_part x else (- Int_part (- x))%Z.

(** [.astype(np.int16)] of a truncated double: the value itself when it
    fits in 16 bits.  Outside that range the conversion is undefined
    behaviour of the C cast numpy performs, and the result depends on
    the platform; the wrap-around written here is one such result, and
    every statement below keeps to the range where the cast is exact
    ([fits_int16], [int16_valued]). *)
Definition int16_cast (z : Z) : Z :=
  ((z + 32768) mod 65536 - 32768)%Z.

(** The table [Q] as the 8x8 array the code builds from it. *)
Definition table_array (t : list (list Z)) : ndarray :=
  mk_array (length t) (length (nth 0 t [])) (fun i j => IZR (Dct.table_at t i j)).

(** The padding step of [quantize_dct] and [dequantize_dct]:
    [h % block_size] raises on a zero block size, and [np.pad] runs only
    when there is something to pad. *)
Definition pad_constant_to (img : ndarray) (block_size : nat) : result ndarray :=
  if (block_size =? 0)%nat then Raise ZeroDivisionError
  else
    let pad_h := pad_of (rows img) block_size in
    let pad_w := pad_of (cols img) block_size in
    if (pad_h =? 0)%nat && (pad_w =? 0)%nat then Ok img
    else Ok (np_pad_constant img pad_h pad_w).

(** [np.round(block / Q)]: the division broadcasts the block against
    the 8x8 table. *)
Definition quantize_block (Q : ndarray) (block : ndarray) : result ndarray :=
  q ← np_binop Rdiv block Q;
  Ok (np_map (fun x => IZR (np_rint x)) q).

(** [block * Q]. *)
Definition dequantize_block (Q : ndarray) (block : ndarray) : result ndarray :=
  np_binop Rmult block Q.

Definition quantize_dct (coeffs : ndarray) (quality : Z) (block_size : nat)
  : result ndarray :=
  Q ← Dct.quant_table quality;
  img ← pad_constant_to coeffs block_size;
  res ← blockwise (quantize_block (table_array Q)) img block_size;
  Ok (np_map (fun x => IZR (int16_cast (np_trunc x)))
             (crop res (rows coeffs) (cols coeffs))).

Definition dequantize_dct (quantized : ndarray) (quality : Z) (block_size : nat)
  : result ndarray :=
  Q ← Dct.quant_table quality;
  img ← pad_constant_to quantized block_size;
  res ← blockwise (dequantize_block (table_array Q)) img block_size;
  Ok (crop res (rows quantized) (cols quantized)).

(** Rounding moves a real by at most one half. *)
Lemma np_rint_error (x : R) : Rabs (IZR (np_rint x) - x) <= 1 / 2.
Proof.
  unfold np_rint. destruct (base_Int_part x) as [H1 H2].
  set (f := Int_part x) in *.
  destruct (Rlt_dec (x - IZR f) (1 / 2)) as [Hlo|Hlo].
  - apply Rabs_le. lra.
  - destruct (Rlt_dec (1 / 2) (x - IZR f)) as [Hhi|Hhi].
    + rewrite plus_IZR. apply Rabs_le. lra.
    + destruct (Z.even f); [|rewrite plus_IZR]; apply Rabs_le; lra.
Qed.

Lemma Int_part_IZR (z : Z) : Int_part (IZR z) = z.
Proof.
  unfold Int_part.
  assert (H : (z + 1)%Z = up (IZR z)).
  { apply tech_up; rewrite plus_IZR; lra. }
  lia.
Qed.

Lemma int16_cast_small (z : Z) :
  (-32768 <= z <= 32767)%Z -> int16_cast z = z.
Proof.
  intros H. unfold int16_cast. rewrite Z.mod_small by lia. lia.
Qed.

Lemma np_trunc_IZR (z : Z) : np_trunc (IZR z) = z.
Proof.
  unfold np_trunc. destruct (Rle_dec 0 (IZR z)).
  - apply Int_part_IZR.
  - rewrite <- opp_IZR, Int_part_IZR. lia.
Qed.

(** The padded image: a multiple of the block size on each side, equal
    to the image wherever the image is defined. *)
Lemma padded_multiple (n bs : nat) :
  (0 < bs)%nat -> exists k, (n + pad_of n bs = k * bs)%nat.
Proof.
  intros Hbs. unfold pad_of.
  pose proof (Nat.div_mod_eq n bs) as Hn.
  pose proof (Nat.mod_upper_bound n bs ltac:(lia)) as Hr.
  destruct (Nat.eq_dec (n mod bs) 0%nat) as [E|NE].
  - exists (n / bs)%nat. rewrite E, Nat.sub_0_r, Nat.Div0.mod_same. lia.
  - exists (S (n / bs)). rewrite Nat.mod_small by lia. lia.
Qed.

Lemma pad_constant_to_spec (img : ndarray) (bs : nat) :
  (0 < bs)%nat ->
  exists img' nr nc,
    pad_constant_to img bs = Ok img'
    /\ rows img' = (nr * bs)%nat /\ cols img' = (nc * bs)%nat
    /\ (rows img <= rows img')%nat /\ (cols img <= cols img')%nat
    /\ forall r c, (r < rows img)%nat -> (c < cols img)%nat ->
         at_ img' r c = at_ img r c.
Proof.
  intros Hbs. unfold pad_constant_to.
  destruct (Nat.eqb_spec bs 0%nat) as [E|_]; [lia|].
  destruct (padded_multiple (rows img) bs Hbs) as [nr Hnr].
  destruct (padded_multiple (cols img) bs Hbs) as [nc Hnc].
  destruct ((pad_of (rows img) bs =? 0)%nat && (pad_of (cols img) bs =? 0)%nat)
    eqn:Epad.
  - apply andb_true_iff in Epad as [E1 E2].
    apply Nat.eqb_eq in E1, E2. rewrite E1 in Hnr. rewrite E2 in Hnc.
    exists img, nr, nc. repeat split; try lia. 
  - exists (np_pad_constant img (pad_of (rows img) bs) (pad_of (cols img) bs)),
      nr, nc.
    simpl. repeat split; try lia.
    intros r c Hr Hc.
    apply Nat.ltb_lt in Hr, Hc. rewrite Hr, Hc. reflexivity.
Qed.

(** The table of a quality in [1, 100]: 8x8, entries in [1, 255]. *)
Lemma table_at_map (f : Z -> Z) (i j : nat) :
  (i < 8)%nat -> (j < 8)%nat ->
  Dct.table_at (map (map f) Dct.Q50) i j = f (Dct.table_at Dct.Q50 i j).
Proof.
  intros Hi Hj.
  do 8 (destruct i as [|i];
        [do 8 (destruct j as [|j]; [reflexivity|]); lia|]).
  lia.
Qed.

Lemma table_entry_range (quality : Z) (i j : nat) :
  (i < 8)%nat -> (j < 8)%nat ->
  (1 <= Dct.table_at (Dct.buildQuantizationTable quality) i j <= 255)%Z.
Proof.
  intros Hi Hj. unfold Dct.buildQuantizationTable.
  rewrite table_at_map by assumption.
  unfold Dct.spec_entry, Dct.np_clip. lia.
Qed.

Lemma div_mod_block (r : nat) : (r / 8 * 8 + r mod 8 = r)%nat.
Proof. pose proof (Nat.div_mod_eq r 8). lia. Qed.

(** The quantizing loop, entry by entry. *)
Lemma quantize_blockwise (quality : Z) (img : ndarray) (nr nc : nat) :
  rows img = (nr * 8)%nat -> cols img = (nc * 8)%nat ->
  exists res,
    blockwise (quantize_block (table_array (Dct.buildQuantizationTable quality)))
              img 8 = Ok res
    /\ rows res = rows img /\ cols res = cols img
    /\ forall r c, (r < rows img)%nat -> (c < cols img)%nat ->
         at_ res r c =
         IZR (np_rint (at_ img r c /
                       IZR (Dct.table_at (Dct.buildQuantizationTable quality)
                                         (r mod 8) (c mod 8)))).
Proof.
  intros Hr Hc.
  set (T := Dct.buildQuantizationTable quality).
  destruct (blockwise_spec (quantize_block (table_array T)) img 8 nr nc
              (fun i j => mk_array 8 8 (fun r c =>
                 IZR (np_rint (at_ img (i + r) (j + c) / IZR (Dct.table_at T r c))))))
    as (res & Hrun & Hrr & Hrc & Hat); try (intros; reflexivity); try lia.
  exists res. split; [exact Hrun|]. split; [exact Hrr|]. split; [exact Hrc|].
  intros r c Hrlt Hclt. rewrite (Hat r c Hrlt Hclt). cbn [at_].
  rewrite !div_mod_block. reflexivity.
Qed.

(** The dequantizing loop, entry by entry. *)
Lemma dequantize_blockwise (quality : Z) (img : ndarray) (nr nc : nat) :
  rows img = (nr * 8)%nat -> cols img = (nc * 8)%nat ->
  exists res,
    blockwise (dequantize_block (table_array (Dct.buildQuantizationTable quality)))
              img 8 = Ok res
    /\ rows res = rows img /\ cols res = cols img
    /\ forall r c, (r < rows img)%nat -> (c < cols img)%nat ->
         at_ res r c =
         at_ img r c *
         IZR (Dct.table_at (Dct.buildQuantizationTable quality) (r mod 8) (c mod 8)).
Proof.
  intros Hr Hc.
  set (T := Dct.buildQuantizationTable quality).
  destruct (blockwise_spec (dequantize_block (table_array T)) img 8 nr nc
              (fun i j => mk_array 8 8 (fun r c =>
                 at_ img (i + r) (j + c) * IZR (Dct.table_at T r c))))
    as (res & Hrun & Hrr & Hrc & Hat); try (intros; reflexivity); try lia.
  exists res. split; [exact Hrun|]. split; [exact Hrr|]. split; [exact Hrc|].
  intros r c Hrlt Hclt. rewrite (Hat r c Hrlt Hclt). cbn [at_].
  rewrite !div_mod_block. reflexivity.
Qed.

(** [quantize_dct] with the default block size, entry by entry. *)
Lemma quantize_dct_spec (coeffs : ndarray) (quality : Z) :
  (1 <= quality <= 100)%Z ->
  exists q,
    quantize_dct coeffs quality 8 = Ok q
    /\ rows q = rows coeffs /\ cols q = cols coeffs
    /\ forall r c, (r < rows coeffs)%nat -> (c < cols coeffs)%nat ->
         at_ q r c =
         IZR (int16_cast
                (np_rint (at_ coeffs r c /
                          IZR (Dct.table_at (Dct.buildQuantizationTable quality)
                                            (r mod 8) (c mod 8))))).
Proof.
  intros Hq. unfold quantize_dct.
  rewrite (Dct.quant_table_refines quality Hq). cbn [mbind result_bind].
  destruct (pad_constant_to_spec coeffs 8 ltac:(lia))
    as (img & nr & nc & Hpad & Hr & Hc & Hrle & Hcle & Hsame).
  rewrite Hpad. cbn [mbind result_bind].
  destruct (quantize_blockwise quality img nr nc Hr Hc)
    as (res & Hrun & Hrr & Hrc & Hat).
  rewrite Hrun. cbn [mbind result_bind].
  eexists. split; [reflexivity|]. simpl.
  split; [lia|]. split; [lia|].
  intros r c Hrlt Hclt.
  rewrite Hat by lia. rewrite np_trunc_IZR, Hsame by assumption. reflexivity.
Qed.

(** [dequantize_dct] with the default block size, entry by entry. *)
Lemma dequantize_dct_spec (quantized : ndarray) (quality : Z) :
  (1 <= quality <= 100)%Z ->
  exists d,
    dequantize_dct quantized quality 8 = Ok d
    /\ rows d = rows quantized /\ cols d = cols quantized
    /\ forall r c, (r < rows quantized)%nat -> (c < cols quantized)%nat ->
         at_ d r c =
         at_ quantized r c *
         IZR (Dct.table_at (Dct.buildQuantizationTable quality) (r mod 8) (c mod 8)).
Proof.
  intros Hq. unfold dequantize_dct.
  rewrite (Dct.quant_table_refines quality Hq). cbn [mbind result_bind].
  destruct (pad_constant_to_spec quantized 8 ltac:(lia))
    as (img & nr & nc & Hpad & Hr & Hc & Hrle & Hcle & Hsame).
  rewrite Hpad. cbn [mbind result_bind].
  destruct (dequantize_blockwise quality img nr nc Hr Hc)
    as (res & Hrun & Hrr & Hrc & Hat).
  rewrite Hrun. cbn [mbind result_bind].
  eexists. split; [reflexivity|]. simpl.
  split; [lia|]. split; [lia|].
  intros r c Hrlt Hclt.
  rewrite Hat by lia. rewrite Hsame by assumption. reflexivity.
Qed.

Lemma Rabs_le_bounds (x y : R) : Rabs x <= y -> - y <= x <= y.
Proof. unfold Rabs. destruct (Rcase_abs x); lra. Qed.

(** Every rounded quotient of the image fits in a signed 16-bit integer. *)
Definition fits_int16 (coeffs : ndarray) (quality : Z) : Prop :=
  forall t, Dct.quant_table quality = Ok t ->
  forall r c, (r < rows coeffs)%nat -> (c < cols coeffs)%nat ->
    (-32768 <= np_rint (at_ coeffs r c / IZR (Dct.table_at t (r mod 8) (c mod 8)))
     <= 32767)%Z.

(** Coefficients of magnitude at most 32767 fit, whatever the quality. *)
Lemma small_coeffs_fit (coeffs : ndarray) (quality : Z) :
  (1 <= quality <= 100)%Z ->
  (forall r c, (r < rows coeffs)%nat -> (c < cols coeffs)%nat ->
     Rabs (at_ coeffs r c) <= 32767) ->
  fits_int16 coeffs quality.
Proof.
  intros Hq Hsmall t Ht r c Hr Hc.
  rewrite (Dct.quant_table_refines quality Hq) in Ht. injection Ht as <-.
  pose proof (table_entry_range quality (r mod 8) (c mod 8)
                ltac:(apply Nat.mod_upper_bound; lia)
                ltac:(apply Nat.mod_upper_bound; lia)) as [Hlo Hhi].
  set (e := Dct.table_at _ _ _) in *.
  apply IZR_le in Hlo.
  set (x := at_ coeffs r c). specialize (Hsmall r c Hr Hc). fold x in Hsmall.
  pose proof (np_rint_error (x / IZR e)) as Herr.
  set (n := np_rint (x / IZR e)) in *.
  assert (Hy : Rabs (x / IZR e) <= 32767).
  { apply Rabs_le. apply Rabs_le_bounds in Hsmall.
    assert (He : 0 < / IZR e) by (apply Rinv_0_lt_compat; lra).
    assert (He1 : / IZR e <= 1).
    { rewrite <- Rinv_1. apply Rinv_le_contravar; lra. }
    unfold Rdiv. split; nra. }
  apply Rabs_le_bounds in Herr. apply Rabs_le_bounds in Hy.
  split.
  - apply le_IZR. assert (-32768 < IZR n + 1 / 2) by lra.
    destruct (Z_le_gt_dec (-32768) n) as [H'|H']; [apply IZR_le, H'|].
    exfalso. assert (n <= -32769)%Z by lia. apply IZR_le in H0. lra.
  - destruct (Z_le_gt_dec n 32767) as [H'|H']; [exact H'|].
    exfalso. assert (32768 <= n)%Z by lia. apply IZR_le in H. lra.
Qed.

(** X1. For every quality in [1, 100] and every coefficient grid whose
    rounded quotients fit in a signed 16-bit integer, each entry of
    [dequantize_dct(quantize_dct(C, quality), quality)] differs from the
    entry of [C] by at most half the divisor of its position in the
    quantization table, hence by at most 127.5. *)
Theorem quantization_error_bound (coeffs : ndarray) (quality : Z) :
  (1 <= quality <= 100)%Z ->
  fits_int16 coeffs quality ->
  exists t q d,
    Dct.quant_table quality = Ok t
    /\ quantize_dct coeffs quality 8 = Ok q
    /\ dequantize_dct q quality 8 = Ok d
    /\ rows d = rows coeffs /\ cols d = cols coeffs
    /\ forall r c, (r < rows coeffs)%nat -> (c < cols coeffs)%nat ->
         Rabs (at_ d r c - at_ coeffs r c)
         <= IZR (Dct.table_at t (r mod 8) (c mod 8)) / 2
         /\ Rabs (at_ d r c - at_ coeffs r c) <= 255 / 2.
Proof.
  intros Hq Hfit.
  destruct (quantize_dct_spec coeffs quality Hq) as (q & Hqrun & Hqr & Hqc & Hqat).
  destruct (dequantize_dct_spec q quality Hq) as (d & Hdrun & Hdr & Hdc & Hdat).
  exists (Dct.buildQuantizationTable quality), q, d.
  split; [apply Dct.quant_table_refines, Hq|].
  split; [exact Hqrun|]. split; [exact Hdrun|].
  split; [congruence|]. split; [congruence|].
  intros r c Hr Hc.
  rewrite Hdat, Hqat by lia.
  rewrite int16_cast_small
    by (apply (Hfit _ (Dct.quant_table_refines quality Hq)); assumption).
  pose proof (table_entry_range quality (r mod 8) (c mod 8)
                ltac:(apply Nat.mod_upper_bound; lia)
                ltac:(apply Nat.mod_upper_bound; lia)) as [Hlo Hhi].
  set (e := Dct.table_at _ _ _) in *.
  apply IZR_le in Hlo, Hhi.
  set (x := at_ coeffs r c).
  pose proof (np_rint_error (x / IZR e)) as Herr.
  set (n := np_rint (x / IZR e)) in *.
  assert (Hbound : Rabs (IZR n * IZR e - x) <= IZR e / 2).
  { replace (IZR n * IZR e - x) with ((IZR n - x / IZR e) * IZR e)
      by (field; lra).
    rewrite Rabs_mult, (Rabs_right (IZR e)) by lra.
    assert (0 <= Rabs (IZR n - x / IZR e)) by apply Rabs_pos. nra. }
  split; [exact Hbound | lra].
Qed.

(** An 8x12 grid of coefficients, all equal to 100. *)
Definition demo_coeffs : ndarray := mk_array 8 12 (fun _ _ => 100).

Lemma quantization_error_bound_witness :
  exists t q d,
    Dct.quant_table 50 = Ok t
    /\ quantize_dct demo_coeffs 50 8 = Ok q
    /\ dequantize_dct q 50 8 = Ok d
    /\ rows d = rows demo_coeffs /\ cols d = cols demo_coeffs
    /\ forall r c, (r < rows demo_coeffs)%nat -> (c < cols demo_coeffs)%nat ->
         Rabs (at_ d r c - at_ demo_coeffs r c)
         <= IZR (Dct.table_at t (r mod 8) (c mod 8)) / 2
         /\ Rabs (at_ d r c - at_ demo_coeffs r c) <= 255 / 2.
Proof.
  apply (quantization_error_bound demo_coeffs 50).
  - lia.
  - apply small_coeffs_fit; [lia|].
    intros r c _ _. simpl. rewrite Rabs_right; lra.
Defined.

(** X2. For every quality in [1, 100] and a grid of any shape (a
    multiple of 8 or not) whose rounded quotients fit in a signed 16-bit
    integer, [quantize_dct] with the default block size returns a grid
    of the same shape whose entry [(r, c)] is
    [round(C[r][c] / Q[r % 8][c % 8])]: the zero padding, the final crop
    and the conversion to [int16] leave no trace. *)
Theorem quantize_dct_entrywise (coeffs : ndarray) (quality : Z) :
  (1 <= quality <= 100)%Z ->
  fits_int16 coeffs quality ->
  exists t q,
    Dct.quant_table quality = Ok t
    /\ quantize_dct coeffs quality 8 = Ok q
    /\ rows q = rows coeffs /\ cols q = cols coeffs
    /\ forall r c, (r < rows coeffs)%nat -> (c < cols coeffs)%nat ->
         at_ q r c =
         IZR (np_rint (at_ coeffs r c /
                       IZR (Dct.table_at t (r mod 8) (c mod 8)))).
Proof.
  intros Hq Hfit.
  destruct (quantize_dct_spec coeffs quality Hq) as (q & Hrun & Hr & Hc & Hat).
  exists (Dct.buildQuantizationTable quality), q.
  split; [apply Dct.quant_table_refines, Hq|].
  split; [exact Hrun|]. split; [exact Hr|]. split; [exact Hc|].
  intros r c Hrlt Hclt. rewrite Hat by assumption.
  rewrite int16_cast_small
    by (apply (Hfit _ (Dct.quant_table_refines quality Hq)); assumption).
  reflexivity.
Qed.

(** A 3x5 grid, no multiple of the block size. *)
Definition demo_odd : ndarray :=
  mk_array 3 5 (fun i j => INR i * 10 - INR j).

Lemma quantize_dct_entrywise_witness :
  exists t q,
    Dct.quant_table 30 = Ok t
    /\ quantize_dct demo_odd 30 8 = Ok q
    /\ rows q = 3%nat /\ cols q = 5%nat
    /\ forall r c, (r < 3)%nat -> (c < 5)%nat ->
         at_ q r c =
         IZR (np_rint (at_ demo_odd r c /
                       IZR (Dct.table_at t (r mod 8) (c mod 8)))).
Proof.
  apply (quantize_dct_entrywise demo_odd 30); [lia|].
  apply small_coeffs_fit; [lia|].
  intros r c Hr Hc. cbn [at_ demo_odd rows cols] in *.
  pose proof (pos_INR r). pose proof (pos_INR c).
  pose proof (le_INR r 2 ltac:(lia)) as Hr2.
  pose proof (le_INR c 4 ltac:(lia)) as Hc4.
  simpl in Hr2, Hc4. apply Rabs_le. lra.
Defined.

Lemma np_rint_IZR (n : Z) : np_rint (IZR n) = n.
Proof.
  unfold np_rint. rewrite Int_part_IZR.
  destruct (Rlt_dec (IZR n - IZR n) (1 / 2)) as [_|H]; [reflexivity|].
  exfalso. apply H. lra.
Qed.

(** Entries that are 16-bit integers. *)
Definition int16_valued (q : ndarray) : Prop :=
  forall r c, (r < rows q)%nat -> (c < cols q)%nat ->
    exists n, (-32768 <= n <= 32767)%Z /\ at_ q r c = IZR n.

(** X3. Quantized data survive a second pass: for every quality in
    [1, 100] and every grid of 16-bit integers, dequantizing and then
    quantizing again with the same quality gives the grid back. *)
Theorem requantize_identity (q : ndarray) (quality : Z) :
  (1 <= quality <= 100)%Z ->
  int16_valued q ->
  exists d q',
    dequantize_dct q quality 8 = Ok d
    /\ quantize_dct d quality 8 = Ok q'
    /\ rows q' = rows q /\ cols q' = cols q
    /\ forall r c, (r < rows q)%nat -> (c < cols q)%nat ->
         at_ q' r c = at_ q r c.
Proof.
  intros Hq Hint.
  destruct (dequantize_dct_spec q quality Hq) as (d & Hdrun & Hdr & Hdc & Hdat).
  destruct (quantize_dct_spec d quality Hq) as (q' & Hqrun & Hqr & Hqc & Hqat).
  exists d, q'. split; [exact Hdrun|]. split; [exact Hqrun|].
  split; [congruence|]. split; [congruence|].
  intros r c Hr Hc.
  rewrite Hqat, Hdat by lia.
  destruct (Hint r c Hr Hc) as (n & Hn & ->).
  pose proof (table_entry_range quality (r mod 8) (c mod 8)
                ltac:(apply Nat.mod_upper_bound; lia)
                ltac:(apply Nat.mod_upper_bound; lia)) as [Hlo _].
  set (e := Dct.table_at _ _ _) in *. apply IZR_le in Hlo.
  replace (IZR n * IZR e / IZR e) with (IZR n) by (field; lra).
  rewrite np_rint_IZR, int16_cast_small by exact Hn. reflexivity.
Qed.

(** A quantized 8x8 block: 7 in the corner, -2 elsewhere. *)
Definition demo_quantized : ndarray :=
  mk_array 8 8 (fun i j => if (i + j =? 0)%nat then 7 else -2).

Lemma requantize_identity_witness :
  exists d q',
    dequantize_dct demo_quantized 75 8 = Ok d
    /\ quantize_dct d 75 8 = Ok q'
    /\ rows q' = 8%nat /\ cols q' = 8%nat
    /\ forall r c, (r < 8)%nat -> (c < 8)%nat ->
         at_ q' r c = at_ demo_quantized r c.
Proof.
  apply (requantize_identity demo_quantized 75); [lia|].
  intros r c _ _. simpl. destruct (r + c =? 0)%nat.
  - exists 7%Z. split; [lia | reflexivity].
  - exists (-2)%Z. split; [lia | reflexivity].
Defined.

(** On a non-empty image, a block size other than 8 makes the block
    computation fail: the 8x8 table does not broadcast against the
    block, or (block size 1) the 8x8 quotient does not fit the slot. *)
Lemma table_blockwise_raises (F : ndarray -> result ndarray)
  (op : R -> R -> R) (post : ndarray -> ndarray)
  (quality : Z) (img : ndarray) (bs : nat) :
  (forall block,
     F block =
     q ← np_binop op block (table_array (Dct.buildQuantizationTable quality));
     Ok (post q)) ->
  (forall a, rows (post a) = rows a) ->
  (0 < bs)%nat -> bs <> 8%nat -> (0 < rows img)%nat -> (0 < cols img)%nat ->
  blockwise F img bs = Raise ValueError.
Proof.
  intros HF Hpost Hbs Hne Hr Hc.
  destruct (Nat.eq_dec bs 1%nat) as [->|Hne1].
  - eapply blockwise_first_misfit; try eassumption.
    + rewrite HF. reflexivity.
    + rewrite Hpost. simpl. lia.
  - apply blockwise_first_raises; try assumption.
    rewrite HF. unfold np_binop, bdim. cbn [rows cols slice table_array].
    change (length (Dct.buildQuantizationTable quality)) with 8%nat.
    destruct (Nat.eqb_spec bs 8%nat) as [E|_]; [contradiction|].
    destruct (Nat.eqb_spec bs 1%nat) as [E|_]; [contradiction|].
    reflexivity.
Qed.

(** X4. The block size is fixed by the 8x8 table: for every quality in
    [1, 100] and every non-empty grid, [quantize_dct] and
    [dequantize_dct] raise ValueError for any positive block size other
    than 8. *)
Theorem block_size_must_be_8 (coeffs : ndarray) (quality : Z) (block_size : nat) :
  (1 <= quality <= 100)%Z ->
  (0 < block_size)%nat -> block_size <> 8%nat ->
  (0 < rows coeffs)%nat -> (0 < cols coeffs)%nat ->
  quantize_dct coeffs quality block_size = Raise ValueError
  /\ dequantize_dct coeffs quality block_size = Raise ValueError.
Proof.
  intros Hq Hbs Hne Hr Hc.
  destruct (pad_constant_to_spec coeffs block_size Hbs)
    as (img & nr & nc & Hpad & _ & _ & Hrle & Hcle & _).
  unfold quantize_dct, dequantize_dct.
  rewrite (Dct.quant_table_refines quality Hq). cbn [mbind result_bind].
  rewrite Hpad. cbn [mbind result_bind]. split.
  - rewrite (table_blockwise_raises _ Rdiv (np_map (fun x => IZR (np_rint x)))
               quality img block_size); try assumption; try lia; reflexivity.
  - rewrite (table_blockwise_raises _ Rmult (fun a => a)
               quality img block_size); try assumption; try lia;
      try reflexivity.
    intros block. unfold dequantize_block.
    destruct (np_binop Rmult block _); reflexivity.
Qed.

Lemma block_size_must_be_8_witness :
  quantize_dct demo_coeffs 50 16 = Raise ValueError
  /\ dequantize_dct demo_coeffs 50 16 = Raise ValueError.
Proof.
  apply (block_size_must_be_8 demo_coeffs 50 16); simpl; lia.
Defined.

(** X5. Division by zero: a quality of 0 makes [5000 / quality] raise
    before anything else is computed, and for a quality in [1, 100] a
    block size of 0 makes [h % block_size] raise; both functions raise
    ZeroDivisionError, whatever the grid. *)
Theorem quantize_zero_division (coeffs : ndarray) (quality : Z) (block_size : nat) :
  quality = 0%Z \/ ((1 <= quality <= 100)%Z /\ block_size = 0%nat) ->
  quantize_dct coeffs quality block_size = Raise ZeroDivisionError
  /\ dequantize_dct coeffs quality block_size = Raise ZeroDivisionError.
Proof.
  intros [->|[Hq ->]]; unfold quantize_dct, dequantize_dct.
  - split; reflexivity.
  - rewrite (Dct.quant_table_refines quality Hq). split; reflexivity.
Qed.

Lemma quantize_zero_division_witness :
  quantize_dct demo_coeffs 90 0 = Raise ZeroDivisionError
  /\ dequantize_dct demo_coeffs 90 0 = Raise ZeroDivisionError.
Proof.
  apply (quantize_zero_division demo_coeffs 90 0). right. split; [lia | reflexivity].
Defined.

End Quant.

(** ** dct.py: the orthonormal DCT and the block transforms *)

Module Transform.

Import Np Blocks.
Open Scope R_scope.

(** *** Orthogonality of the cosines of the DCT *)

Lemma sin_INR_PI (n : nat) : sin (INR n * PI) = 0.
Proof.
  induction n as [|n IH].
  - simpl. rewrite Rmult_0_l. apply sin_0.
  - rewrite S_INR, Rmult_plus_distr_r, Rmult_1_l, neg_sin, IH. lra.
Qed.

Lemma cos_INR_PI_sq (n : nat) : cos (INR n * PI) * cos (INR n * PI) = 1.
Proof.
  pose proof (sin2_cos2 (INR n * PI)) as H. unfold Rsqr in H.
  rewrite sin_INR_PI in H. lra.
Qed.

(** The Dirichlet kernel [1 + 2 * (cos theta + ... + cos ((N-1) theta))]. *)
Definition kernel (N : nat) (theta : R) : R :=
  2 * sum_upto N (fun k => cos (INR k * theta)) - 1.

Lemma kernel_sin (N : nat) (theta : R) :
  sin (theta / 2) * kernel N theta = sin ((INR N - 1 / 2) * theta).
Proof.
  unfold kernel. induction N as [|N IH].
  - simpl. replace ((0 - 1 / 2) * theta) with (- (theta / 2)) by lra.
    rewrite sin_neg. lra.
  - cbn [sum_upto]. rewrite S_INR.
    replace ((INR N + 1 - 1 / 2) * theta) with (INR N * theta + theta / 2) by lra.
    replace ((INR N - 1 / 2) * theta) with (INR N * theta - theta / 2) in IH by lra.
    rewrite sin_plus. rewrite sin_minus in IH. lra.
Qed.

Lemma div_lt_1 (a b : R) : 0 < b -> a < b -> a / b < 1.
Proof.
  intros Hb Hab. unfold Rdiv. apply (Rmult_lt_reg_r b); [lra|].
  rewrite Rmult_assoc, Rinv_l by lra. lra.
Qed.

Lemma sin_pos_scaled (d M : R) : 0 < d -> d < M -> 0 < sin (PI * d / M).
Proof.
  intros Hd HM. pose proof PI_RGT_0 as Hpi.
  assert (H0 : 0 < d / M) by (apply Rdiv_lt_0_compat; lra).
  assert (H1 : d / M < 1) by (apply div_lt_1; lra).
  replace (PI * d / M) with (PI * (d / M)) by (unfold Rdiv; ring).
  apply sin_gt_0; nra.
Qed.

Lemma sin_nonzero_scaled (d M : R) :
  d <> 0 -> - M < d -> d < M -> sin (PI * d / M) <> 0.
Proof.
  intros Hd Hlo Hhi. destruct (Rlt_dec 0 d) as [Hpos|Hneg].
  - pose proof (sin_pos_scaled d M Hpos Hhi). lra.
  - assert (Hpos : 0 < - d) by lra.
    pose proof (sin_pos_scaled (- d) M Hpos ltac:(lra)) as H.
    replace (PI * - d / M) with (- (PI * d / M)) in H by (unfold Rdiv; ring).
    rewrite sin_neg in H. lra.
Qed.

Section Orthogonality.

Variable N : nat.
Hypothesis N_pos : (0 < N)%nat.

Lemma RN_pos : 0 < INR N.
Proof. apply lt_0_INR, N_pos. Qed.

(** The angle of sample [n]: [pi * (2n + 1) / (2N)]. *)
Definition angle (n : nat) : R := PI * (2 * INR n + 1) / (2 * INR N).

Lemma kernel_diff (n m : nat) :
  (n < N)%nat -> (m < N)%nat -> n <> m ->
  kernel N (angle n - angle m) = - (cos (INR n * PI) * cos (INR m * PI)).
Proof.
  intros Hn Hm Hnm. pose proof RN_pos as HN.
  set (theta := angle n - angle m).
  assert (Hhalf : theta / 2 = PI * (INR n - INR m) / (2 * INR N)).
  { unfold theta, angle. field. lra. }
  assert (Hsin : sin (theta / 2) <> 0).
  { rewrite Hhalf. apply lt_INR in Hn, Hm.
    pose proof (pos_INR n). pose proof (pos_INR m).
    apply sin_nonzero_scaled; try lra.
    intros E. apply Hnm. apply INR_eq. lra. }
  pose proof (kernel_sin N theta) as HK.
  replace ((INR N - 1 / 2) * theta)
    with (INR n * PI - INR m * PI - theta / 2) in HK
    by (unfold theta, angle; field; lra).
  rewrite sin_minus, sin_minus, cos_minus, !sin_INR_PI in HK.
  apply (Rmult_eq_reg_l (sin (theta / 2))); [|exact Hsin].
  rewrite HK. ring.
Qed.

Lemma kernel_sum (n m : nat) :
  (n < N)%nat -> (m < N)%nat ->
  kernel N (angle n + angle m) = cos (INR n * PI) * cos (INR m * PI).
Proof.
  intros Hn Hm. pose proof RN_pos as HN.
  set (theta := angle n + angle m).
  assert (Hhalf : theta / 2 = PI * (INR n + INR m + 1) / (2 * INR N)).
  { unfold theta, angle. field. lra. }
  assert (Hsin : sin (theta / 2) <> 0).
  { rewrite Hhalf.
    assert (Hn' : INR n + 1 <= INR N) by (rewrite <- S_INR; apply le_INR; lia).
    assert (Hm' : INR m + 1 <= INR N) by (rewrite <- S_INR; apply le_INR; lia).
    pose proof (pos_INR n). pose proof (pos_INR m).
    pose proof (sin_pos_scaled (INR n + INR m + 1) (2 * INR N)
                  ltac:(lra) ltac:(lra)). lra. }
  pose proof (kernel_sin N theta) as HK.
  replace ((INR N - 1 / 2) * theta)
    with (INR n * PI + INR m * PI + PI - theta / 2) in HK
    by (unfold theta, angle; field; lra).
  rewrite sin_minus, neg_sin, neg_cos, sin_plus, cos_plus, !sin_INR_PI in HK.
  apply (Rmult_eq_reg_l (sin (theta / 2))); [|exact Hsin].
  rewrite HK. ring.
Qed.

Lemma sum_upto_plus n f g :
  sum_upto n (fun k => f k + g k) = sum_upto n f + sum_upto n g.
Proof. induction n as [|n IH]; simpl; [lra | rewrite IH; lra]. Qed.

Lemma sum_upto_scal n c f :
  sum_upto n (fun k => c * f k) = c * sum_upto n f.
Proof. induction n as [|n IH]; simpl; [lra | rewrite IH; lra]. Qed.

Lemma kernel_0 (M : nat) : kernel M 0 = 2 * INR M - 1.
Proof.
  unfold kernel. f_equal. f_equal.
  induction M as [|M IH]; [reflexivity|].
  cbn [sum_upto]. rewrite IH, Rmult_0_r, cos_0, S_INR. reflexivity.
Qed.

(** Product to sum, under the sum. *)
Lemma sum_cos_cos (M : nat) (a b : R) :
  4 * sum_upto M (fun k => cos (INR k * a) * cos (INR k * b))
  = kernel M (a - b) + kernel M (a + b) + 2.
Proof.
  unfold kernel. induction M as [|M IH]; cbn [sum_upto]; [lra|].
  replace (INR M * (a - b)) with (INR M * a - INR M * b) by ring.
  replace (INR M * (a + b)) with (INR M * a + INR M * b) by ring.
  rewrite cos_minus, cos_plus. lra.
Qed.

(** The weights of the orthonormal transform: half weight on [k = 0]. *)
Lemma sum_weighted (M : nat) (c : R) (g : nat -> R) :
  sum_upto (S M) (fun k => (if (k =? 0)%nat then c else 2 * c) * g k)
  = 2 * c * sum_upto (S M) g - c * g O.
Proof.
  induction M as [|M IH].
  - simpl. lra.
  - cbn [sum_upto] in *. rewrite IH. simpl. lra.
Qed.

Lemma sum_weighted_pos (n : nat) (c : R) (g : nat -> R) :
  (0 < n)%nat ->
  sum_upto n (fun k => (if (k =? 0)%nat then c else 2 * c) * g k)
  = 2 * c * sum_upto n g - c * g O.
Proof. intros Hn. destruct n as [|M]; [lia | apply sum_weighted]. Qed.

(** The cosines of the transform are orthogonal under these weights. *)
Lemma cos_gram (n m : nat) :
  (n < N)%nat -> (m < N)%nat ->
  sum_upto N (fun k => (if (k =? 0)%nat then / INR N else 2 * / INR N)
                       * (cos (INR k * angle n) * cos (INR k * angle m)))
  = if (n =? m)%nat then 1 else 0.
Proof.
  intros Hn Hm. pose proof RN_pos as HN.
  rewrite sum_weighted_pos by exact N_pos.
  change (INR 0) with 0. rewrite !Rmult_0_l, cos_0.
  pose proof (sum_cos_cos N (angle n) (angle m)) as H4.
  destruct (Nat.eqb_spec n m) as [->|Hnm].
  - rewrite Rminus_diag, kernel_0, kernel_sum, cos_INR_PI_sq in H4 by assumption.
    apply (Rmult_eq_reg_l (INR N)); [|lra].
    field_simplify; [|lra]. nra.
  - rewrite kernel_diff, kernel_sum in H4 by assumption.
    apply (Rmult_eq_reg_l (INR N)); [|lra].
    field_simplify; [|lra]. nra.
Qed.

End Orthogonality.

(** *** The one-dimensional transforms of scipy *)

(** [scipy.fftpack.dct(x, norm='ortho')] (type II) on a vector of
    length [N > 0], after the library's documentation:
    [y[k] = 2 * sum_n x[n] * cos(pi*k*(2n+1)/(2N))], scaled by
    [sqrt(1/(4N))] for [k = 0] and by [sqrt(1/(2N))] otherwise. *)
Definition dct1 (N : nat) (x : nat -> R) (k : nat) : R :=
  2 * sum_upto N (fun n => x n * cos (PI * INR k * (2 * INR n + 1) / (2 * INR N)))
  * (if (k =? 0)%nat then R_sqrt.sqrt (1 / (4 * INR N))
     else R_sqrt.sqrt (1 / (2 * INR N))).

(** [scipy.fftpack.idct(y, norm='ortho')] (type III):
    [x[n] = y[0]/sqrt(N) + sqrt(2/N) * sum_{k=1}^{N-1} y[k] * cos(pi*(2n+1)*k/(2N))]. *)
Definition idct1 (N : nat) (y : nat -> R) (n : nat) : R :=
  y O / R_sqrt.sqrt (INR N)
  + R_sqrt.sqrt (2 / INR N)
    * sum_upto (N - 1)
        (fun k => y (S k) * cos (PI * (2 * INR n + 1) * INR (S k) / (2 * INR N))).

(** The common form of both: a sum against the orthonormal basis. *)
Definition weight (N k : nat) : R :=
  if (k =? 0)%nat then / R_sqrt.sqrt (INR N) else R_sqrt.sqrt (2 / INR N).

Definition basis (N k n : nat) : R :=
  weight N k * cos (INR k * angle N n).

Lemma sqrt_4 : R_sqrt.sqrt 4 = 2.
Proof. replace 4 with (2 * 2) by lra. apply sqrt_square. lra. Qed.

Lemma dct_scale_0 (N : nat) :
  (0 < N)%nat -> 2 * R_sqrt.sqrt (1 / (4 * INR N)) = / R_sqrt.sqrt (INR N).
Proof.
  intros HN. pose proof (RN_pos N HN) as H.
  assert (Hs : 0 < R_sqrt.sqrt (INR N)) by (apply sqrt_lt_R0, H).
  unfold Rdiv. rewrite Rmult_1_l, sqrt_inv, sqrt_mult, sqrt_4 by lra.
  field. lra.
Qed.

Lemma dct_scale_k (N : nat) :
  (0 < N)%nat -> 2 * R_sqrt.sqrt (1 / (2 * INR N)) = R_sqrt.sqrt (2 / INR N).
Proof.
  intros HN. pose proof (RN_pos N HN) as H.
  assert (H2 : 0 < R_sqrt.sqrt 2) by (apply sqrt_lt_R0; lra).
  assert (Hs : 0 < R_sqrt.sqrt (INR N)) by (apply sqrt_lt_R0, H).
  assert (E2 : R_sqrt.sqrt 2 * R_sqrt.sqrt 2 = 2) by (apply sqrt_sqrt; lra).
  unfold Rdiv. rewrite Rmult_1_l, !sqrt_inv, !sqrt_mult, sqrt_inv by
    (try lra; left; apply Rinv_0_lt_compat; lra).
  field_simplify; [|lra|lra]. rewrite <- E2 at 1. field. lra.
Qed.

Lemma weight_sq (N k : nat) :
  (0 < N)%nat ->
  weight N k * weight N k = if (k =? 0)%nat then / INR N else 2 * / INR N.
Proof.
  intros HN. pose proof (RN_pos N HN) as H. unfold weight.
  destruct (k =? 0)%nat.
  - rewrite <- Rinv_mult, sqrt_sqrt by lra. reflexivity.
  - rewrite sqrt_sqrt; [reflexivity|].
    apply Rlt_le, Rdiv_lt_0_compat; lra.
Qed.

Lemma sum_upto_shift (n : nat) (f : nat -> R) :
  sum_upto (S n) f = f O + sum_upto n (fun k => f (S k)).
Proof.
  induction n as [|n IH]; [simpl; lra|].
  cbn [sum_upto] in *. rewrite IH. lra.
Qed.

Lemma dct1_basis (N : nat) (x : nat -> R) (k : nat) :
  (0 < N)%nat ->
  dct1 N x k = sum_upto N (fun n => x n * basis N k n).
Proof.
  intros HN. pose proof (RN_pos N HN) as H. unfold dct1.
  rewrite Rmult_assoc, (Rmult_comm (sum_upto _ _)), <- Rmult_assoc.
  replace (2 * (if (k =? 0)%nat then R_sqrt.sqrt (1 / (4 * INR N))
                else R_sqrt.sqrt (1 / (2 * INR N))))
    with (weight N k).
  - rewrite <- sum_upto_scal. apply sum_upto_ext. intros n _.
    unfold basis, angle. replace (PI * INR k * (2 * INR n + 1) / (2 * INR N))
      with (INR k * (PI * (2 * INR n + 1) / (2 * INR N))) by (field; lra).
    ring.
  - unfold weight. destruct (k =? 0)%nat.
    + symmetry. apply dct_scale_0, HN.
    + symmetry. apply dct_scale_k, HN.
Qed.

Lemma idct1_basis (N : nat) (y : nat -> R) (n : nat) :
  (0 < N)%nat ->
  idct1 N y n = sum_upto N (fun k => y k * basis N k n).
Proof.
  intros HN. pose proof (RN_pos N HN) as H. unfold idct1.
  destruct N as [|M]; [lia|].
  rewrite sum_upto_shift. replace (S M - 1)%nat with M by lia.
  f_equal.
  - unfold basis, weight. simpl Nat.eqb. cbv iota.
    change (INR 0) with 0. rewrite Rmult_0_l, cos_0. unfold Rdiv. ring.
  - rewrite <- sum_upto_scal. apply sum_upto_ext. intros k _.
    unfold basis, weight, angle. cbn [Nat.eqb].
    replace (PI * (2 * INR n + 1) * INR (S k) / (2 * INR (S M)))
      with (INR (S k) * (PI * (2 * INR n + 1) / (2 * INR (S M)))) by (field; lra).
    ring.
Qed.

(** The basis is orthonormal. *)
Lemma basis_gram (N n m : nat) :
  (0 < N)%nat -> (n < N)%nat -> (m < N)%nat ->
  sum_upto N (fun k => basis N k n * basis N k m)
  = if (n =? m)%nat then 1 else 0.
Proof.
  intros HN Hn Hm. rewrite <- (cos_gram N HN n m Hn Hm).
  apply sum_upto_ext. intros k _. unfold basis.
  rewrite <- (weight_sq N k HN). ring.
Qed.

Lemma sum_upto_swap (n m : nat) (f : nat -> nat -> R) :
  sum_upto n (fun i => sum_upto m (fun j => f i j))
  = sum_upto m (fun j => sum_upto n (fun i => f i j)).
Proof.
  induction n as [|n IH]; cbn [sum_upto].
  - symmetry. apply sum_upto_all_zero. reflexivity.
  - rewrite IH, <- sum_upto_plus. reflexivity.
Qed.

Lemma sum_upto_delta (n j : nat) (g : nat -> R) :
  (j < n)%nat ->
  sum_upto n (fun k => g k * (if (k =? j)%nat then 1 else 0)) = g j.
Proof.
  induction n as [|n IH]; intros Hj; [lia|].
  cbn [sum_upto]. destruct (Nat.eqb_spec n j) as [->|Hne].
  - rewrite (sum_upto_all_zero j); [lra|].
    intros i Hi. destruct (Nat.eqb_spec i j); [lia | lra].
  - rewrite IH by lia. lra.
Qed.

Lemma dct1_ext (N : nat) (x x' : nat -> R) (k : nat) :
  (forall n, (n < N)%nat -> x n = x' n) -> dct1 N x k = dct1 N x' k.
Proof.
  intros H. unfold dct1. f_equal. f_equal.
  apply sum_upto_ext. intros n Hn. rewrite (H n Hn). reflexivity.
Qed.

Lemma idct1_ext (N : nat) (y y' : nat -> R) (n : nat) :
  (forall k, (k < N)%nat -> y k = y' k) -> idct1 N y n = idct1 N y' n.
Proof.
  intros H. destruct N as [|M].
  - unfold idct1. simpl. change (INR 0) with 0.
    unfold Rdiv. rewrite sqrt_0, Rinv_0. ring.
  - rewrite !idct1_basis by lia. apply sum_upto_ext.
    intros k Hk. rewrite (H k Hk). reflexivity.
Qed.

(** The inverse transform undoes the transform. *)
Lemma idct1_dct1 (N : nat) (x : nat -> R) (n : nat) :
  (n < N)%nat -> idct1 N (dct1 N x) n = x n.
Proof.
  intros Hn. assert (HN : (0 < N)%nat) by lia.
  rewrite idct1_basis by exact HN.
  rewrite (sum_upto_ext N _
             (fun k => sum_upto N (fun m => x m * (basis N k m * basis N k n)))).
  2:{ intros k _. rewrite dct1_basis by exact HN.
      rewrite Rmult_comm, <- sum_upto_scal. apply sum_upto_ext.
      intros m _. ring. }
  rewrite sum_upto_swap.
  rewrite (sum_upto_ext N _ (fun m => x m * (if (m =? n)%nat then 1 else 0))).
  - apply sum_upto_delta, Hn.
  - intros m Hm. rewrite sum_upto_scal, basis_gram by assumption. reflexivity.
Qed.

(** Transforms along two different axes commute. *)
Lemma idct1_dct1_commute (R_ C_ : nat) (A : nat -> nat -> R) (l n : nat) :
  (0 < R_)%nat -> (0 < C_)%nat ->
  idct1 R_ (fun k => dct1 C_ (fun c => A c k) l) n
  = dct1 C_ (fun c => idct1 R_ (A c) n) l.
Proof.
  intros HR HC.
  rewrite idct1_basis, dct1_basis by assumption.
  rewrite (sum_upto_ext R_ _
             (fun k => sum_upto C_ (fun c => A c k * basis C_ l c * basis R_ k n))).
  2:{ intros k _. rewrite dct1_basis by exact HC.
      rewrite Rmult_comm, <- sum_upto_scal. apply sum_upto_ext.
      intros c _. ring. }
  rewrite sum_upto_swap. apply sum_upto_ext. intros c _.
  rewrite idct1_basis by exact HR.
  rewrite Rmult_comm, <- sum_upto_scal. apply sum_upto_ext. intros k _. ring.
Qed.

(** *** The two-dimensional transforms *)

(** [a.T]. *)
Definition np_T (a : ndarray) : ndarray :=
  mk_array (cols a) (rows a) (fun i j => at_ a j i).

(** The orthonormal transforms along the last axis, row by row, and
    their two-dimensional compositions, as functions of the entries. *)
Definition dct_rows (a : ndarray) : ndarray :=
  mk_array (rows a) (cols a) (fun r k => dct1 (cols a) (at_ a r) k).

Definition idct_rows (a : ndarray) : ndarray :=
  mk_array (rows a) (cols a) (fun r n => idct1 (cols a) (at_ a r) n).

Definition dct2 (block : ndarray) : ndarray :=
  dct_rows (np_T (dct_rows (np_T block))).

Definition idct2 (coeffs : ndarray) : ndarray :=
  idct_rows (np_T (idct_rows (np_T coeffs))).

(** [dct(a, norm='ortho')] and [idct(a, norm='ortho')] of scipy.fftpack
    on a 2-D array: along the last axis; an axis of length zero raises
    [ValueError] (invalid number of data points). *)
Definition dct_last (a : ndarray) : result ndarray :=
  if (cols a =? 0)%nat then Raise ValueError else Ok (dct_rows a).

Definition idct_last (a : ndarray) : result ndarray :=
  if (cols a =? 0)%nat then Raise ValueError else Ok (idct_rows a).

(** [DCT2D]: [dct(dct(block.T, norm='ortho').T, norm='ortho')]. *)
Definition DCT2D (block : ndarray) : result ndarray :=
  t ← dct_last (np_T block);
  dct_last (np_T t).

(** [IDCT2D]: [idct(idct(coeffs.T, norm='ortho').T, norm='ortho')]. *)
Definition IDCT2D (coeffs : ndarray) : result ndarray :=
  t ← idct_last (np_T coeffs);
  idct_last (np_T t).

(** On a block with no empty side the code's transforms are the
    functions above. *)
Lemma DCT2D_ok (block : ndarray) :
  (0 < rows block)%nat -> (0 < cols block)%nat ->
  DCT2D block = Ok (dct2 block).
Proof.
  intros Hr Hc. unfold DCT2D, dct_last. cbn [cols rows np_T].
  destruct (Nat.eqb_spec (rows block) 0) as [E|_]; [lia|].
  cbn [mbind result_bind cols rows np_T dct_rows].
  destruct (Nat.eqb_spec (cols block) 0) as [E|_]; [lia|]. reflexivity.
Qed.

Lemma IDCT2D_ok (coeffs : ndarray) :
  (0 < rows coeffs)%nat -> (0 < cols coeffs)%nat ->
  IDCT2D coeffs = Ok (idct2 coeffs).
Proof.
  intros Hr Hc. unfold IDCT2D, idct_last. cbn [cols rows np_T].
  destruct (Nat.eqb_spec (rows coeffs) 0) as [E|_]; [lia|].
  cbn [mbind result_bind cols rows np_T idct_rows].
  destruct (Nat.eqb_spec (cols coeffs) 0) as [E|_]; [lia|]. reflexivity.
Qed.

Lemma DCT2D_empty (block : ndarray) :
  rows block = 0%nat \/ cols block = 0%nat ->
  DCT2D block = Raise ValueError /\ IDCT2D block = Raise ValueError.
Proof.
  intros H. unfold DCT2D, IDCT2D, dct_last, idct_last. cbn [cols rows np_T].
  destruct (Nat.eqb_spec (rows block) 0) as [E|NE]; [split; reflexivity|].
  cbn [mbind result_bind cols rows np_T dct_rows idct_rows].
  destruct (Nat.eqb_spec (cols block) 0) as [E|NE']; [split; reflexivity|].
  lia.
Qed.

(** Two arrays of one shape with the same entries inside it. *)
Definition same_entries (a b : ndarray) : Prop :=
  rows a = rows b /\ cols a = cols b /\
  forall i j, (i < rows a)%nat -> (j < cols a)%nat -> at_ a i j = at_ b i j.


(** The inverse 2-D transform undoes the 2-D transform, on a block of
    any (non-empty) shape. *)
Lemma idct2_dct2 (block : ndarray) :
  same_entries (idct2 (dct2 block)) block.
Proof.
  unfold same_entries, idct2, dct2. cbn.
  split; [reflexivity|]. split; [reflexivity|].
  intros n m Hn Hm.
  rewrite (idct1_ext (cols block) _
             (dct1 (cols block) (fun c => at_ block n c))).
  - apply idct1_dct1, Hm.
  - intros l Hl.
    rewrite (idct1_dct1_commute (rows block) (cols block)
               (fun c k => dct1 (rows block) (fun r => at_ block r c) k)) by lia.
    apply dct1_ext. intros c Hc.
    exact (idct1_dct1 (rows block) (fun r => at_ block r c) n Hn).
Qed.

(** *** The block transforms *)














(** X6. [IDCT2D] undoes [DCT2D] on every block with no empty side
    (and entries of magnitude at most 1e100, far from the overflow of a
    double): both calls succeed and [IDCT2D(DCT2D(block))] has the shape
    of the block and the same entries (in exact arithmetic).  On a block
    with an empty side both raise [ValueError], as scipy's transforms do
    on an axis of length zero. *)
Theorem IDCT2D_inverts_DCT2D (block : ndarray) :
  (rows block = 0%nat \/ cols block = 0%nat ->
   DCT2D block = Raise ValueError /\ IDCT2D block = Raise ValueError)
  /\ ((0 < rows block)%nat -> (0 < cols block)%nat ->
      (forall i j, (i < rows block)%nat -> (j < cols block)%nat ->
         Rabs (at_ block i j) <= 10 ^ 100) ->
      exists coeffs back,
        DCT2D block = Ok coeffs
        /\ rows coeffs = rows block /\ cols coeffs = cols block
        /\ IDCT2D coeffs = Ok back
        /\ rows back = rows block /\ cols back = cols block
        /\ forall i j, (i < rows block)%nat -> (j < cols block)%nat ->
             at_ back i j = at_ block i j).
Proof.
  split; [apply DCT2D_empty|].
  intros Hr Hc _. exists (dct2 block), (idct2 (dct2 block)).
  split; [apply DCT2D_ok; assumption|].
  split; [reflexivity|]. split; [reflexivity|].
  split; [apply IDCT2D_ok; assumption|].
  destruct (idct2_dct2 block) as (Hrr & Hcc & Hat).
  split; [exact Hrr|]. split; [exact Hcc|].
  intros i j Hi Hj. apply Hat; [rewrite Hrr | rewrite Hcc]; assumption.
Qed.

(** A 2x3 block. *)
Definition demo_block : ndarray :=
  mk_array 2 3 (fun i j => INR i * 10 - INR j).

Lemma IDCT2D_inverts_DCT2D_witness :
  exists coeffs back,
    DCT2D demo_block = Ok coeffs
    /\ rows coeffs = 2%nat /\ cols coeffs = 3%nat
    /\ IDCT2D coeffs = Ok back
    /\ rows back = 2%nat /\ cols back = 3%nat
    /\ forall i j, (i < 2)%nat -> (j < 3)%nat ->
         at_ back i j = at_ demo_block i j.
Proof.
  apply (proj2 (IDCT2D_inverts_DCT2D demo_block)).
  - cbn. lia.
  - cbn. lia.
  - intros i j Hi Hj. cbn [rows cols at_ demo_block] in *.
    pose proof (pos_INR i). pose proof (pos_INR j).
    pose proof (le_INR i 1 ltac:(lia)) as Hi1.
    pose proof (le_INR j 2 ltac:(lia)) as Hj2.
    simpl in Hi1, Hj2.
    assert (H100 : 100 <= 10 ^ 100).
    { change (10 ^ 100) with (10 * (10 * 10 ^ 98)).
      assert (1 <= 10 ^ 98) by (apply pow_R1_Rle; lra). nra. }
    apply Rabs_le. lra.
Defined.






End Transform.

(** ** metrics.py *)

Module Metrics.

Import Np.
Open Scope R_scope.

(** [mse]: mean of the squared differences. *)
Definition mse (original compressed : ndarray) : result pyfloat :=
  d ← np_sub original compressed;
  Ok (np_mean (np_square d)).

(** [psnr]: [inf] when the mean squared error compares equal to zero,
    [10 * log10(max_val ** 2 / mse)] otherwise.  A NaN mean (empty
    arrays) is not equal to zero and propagates. *)
Definition psnr (original compressed : ndarray) (max_val : R) : result pyfloat :=
  d ← np_sub original compressed;
  match np_mean (np_square d) with
  | Fin mse =>
      if Req_dec_T mse 0 then Ok PInf
      else Ok (times10 (np_log10 (max_val ^ 2 / mse)))
  | _ => Ok NaN
  end.

(** [snr]: [inf] when the noise power compares equal to zero,
    [10 * log10(signal_power / noise_power)] otherwise. *)
Definition snr (signal noisy : ndarray) : result pyfloat :=
  let signal_power := np_mean (np_square signal) in
  noise ← np_sub noisy signal;
  match np_mean (np_square noise) with
  | Fin noise_power =>
      if Req_dec_T noise_power 0 then Ok PInf
      else match signal_power with
           | Fin sp => Ok (times10 (np_log10 (sp / noise_power)))
           | _ => Ok NaN
           end
  | _ => Ok NaN
  end.



(** The mean of squares of a non-empty array is a real, and it is zero
    exactly when the array is. *)
Lemma mean_square_zero (a : ndarray) :
  (0 < size a)%nat ->
  exists m, np_mean (np_square a) = Fin m /\ (m = 0 <-> is_zero a).
Proof.
  intros Hsz. unfold np_mean.
  replace (size (np_square a)) with (size a) by reflexivity.
  destruct (Nat.eqb_spec (size a) 0) as [E|_]; [lia|].
  eexists. split; [reflexivity|].
  assert (Hn : 0 < INR (size a)) by (apply lt_0_INR; lia).
  rewrite <- np_sum_square_zero. split.
  - intros H. apply (Rmult_eq_compat_r (INR (size a))) in H.
    unfold Rdiv in H. rewrite Rmult_assoc, Rinv_l in H by lra. lra.
  - intros ->. unfold Rdiv. lra.
Qed.

(** [np.ones((h, w))]. *)
Definition np_ones (h w : nat) : ndarray := mk_array h w (fun _ _ => 1).

(** An 8-bit image: every sample is an integer between 0 and 255.

    The metrics are written here over the reals.  On 8-bit images the
    binary64 computation of the code cannot overflow, and a difference of
    two samples is an integer, so that a square, a sum of squares or a
    mean is zero in binary64 exactly when it is zero over the reals: the
    tests against zero and the infinities of the code agree with the
    model, which then differs from the code by rounding only.  For
    arbitrary doubles they do not (squares underflow to zero, powers
    overflow to infinity), hence this hypothesis in the statements
    below. *)
Definition eight_bit (a : ndarray) : Prop :=
  forall i j, (i < rows a)%nat -> (j < cols a)%nat ->
    exists k : Z, (0 <= k <= 255)%Z /\ at_ a i j = IZR k.


Lemma pow10_ge_1 (n : nat) : 1 <= 10 ^ n.
Proof. apply pow_R1_Rle. lra. Qed.




(** *** The other metrics of the module *)

(** [np.abs]. *)
Definition np_abs : ndarray -> ndarray := np_map Rabs.

(** [mae]: mean of the absolute differences. *)
Definition mae (original compressed : ndarray) : result pyfloat :=
  d ← np_sub original compressed;
  Ok (np_mean (np_abs d)).

(** [np.var], after numpy's documentation:
    [mean(abs(x - x.mean()) ** 2)]. *)
Definition np_var (a : ndarray) : pyfloat :=
  match np_mean a with
  | Fin mu => np_mean (np_map (fun x => Rabs (x - mu) ^ 2) a)
  | other => other
  end.

Definition np_mul : ndarray -> ndarray -> result ndarray := np_binop Rmult.

(** Division of two [float64] scalars by numpy: a zero divisor gives NaN
    or an infinity (with a warning), not an exception.  The divisor of
    [ssim] is a product of sums of squares, so when it is zero it is
    [+0.0]. *)
Definition np_div (x y : R) : pyfloat :=
  if Req_dec_T y 0 then
    if Req_dec_T x 0 then NaN else if Rlt_dec 0 x then PInf else NInf
  else Fin (x / y).

(** [ssim], with its global statistics.  [window_size] is not used by
    the code.  When one of the images is empty its mean is NaN and so is
    the result, once the shapes have been broadcast. *)
Definition ssim (original compressed : ndarray) (k1 k2 L : R)
  : result pyfloat :=
  let C1 := (k1 * L) ^ 2 in
  let C2 := (k2 * L) ^ 2 in
  match np_mean original, np_mean compressed with
  | Fin mu1, Fin mu2 =>
      prod ← np_mul (np_map (fun x => x - mu1) original)
                    (np_map (fun x => x - mu2) compressed);
      match np_var original, np_var compressed, np_mean prod with
      | Fin sigma1_sq, Fin sigma2_sq, Fin sigma12 =>
          let numerator := (2 * mu1 * mu2 + C1) * (2 * sigma12 + C2) in
          let denominator :=
            (mu1 ^ 2 + mu2 ^ 2 + C1) * (sigma1_sq + sigma2_sq + C2) in
          Ok (np_div numerator denominator)
      | _, _, _ => Ok NaN
      end
  | _, _ =>
      _ ← np_mul original compressed;
      Ok NaN
  end.

(** Python's [a / b] on two [int]s: [ZeroDivisionError] on a zero
    divisor, [OverflowError] when the quotient is too large for a float
    (it would round to [2^1024] or beyond), the quotient otherwise (here
    a real). *)
Definition py_truediv (a b : Z) : result R :=
  if (b =? 0)%Z then Raise ZeroDivisionError
  else if ((2 ^ 1024 - 2 ^ 970) * Z.abs b <=? Z.abs a)%Z
       then Raise OverflowError
  else Ok (IZR a / IZR b).

Definition compression_ratio (original_size compressed_size : Z) : result R :=
  py_truediv original_size compressed_size.

Definition bits_per_pixel (compressed_size_bytes width height : Z) : result R :=
  py_truediv (compressed_size_bytes * 8) (width * height).

(** [compare_images]: the four metrics with their default arguments, in
    a dictionary; the entries are computed in the order written. *)
Definition compare_images (original compressed : ndarray)
  : result (gmap string pyfloat) :=
  p ← psnr original compressed 255;
  s ← ssim original compressed (1 / 100) (3 / 100) 255;
  m ← mse original compressed;
  a ← mae original compressed;
  Ok (<["psnr" := p]> (<["ssim" := s]> (<["mse" := m]> (<["mae" := a]> ∅)))).

(** The two arrays agree on every entry of the shape. *)
Definition equal_entries (a b : ndarray) : Prop :=
  forall i j, (i < rows a)%nat -> (j < cols a)%nat -> at_ a i j = at_ b i j.




Lemma np_binop_same_shape (f : R -> R -> R) (a b : ndarray) :
  same_shape a b ->
  exists d, np_binop f a b = Ok d
            /\ rows d = rows a /\ cols d = cols a
            /\ forall i j, (i < rows a)%nat -> (j < cols a)%nat ->
                 at_ d i j = f (at_ a i j) (at_ b i j).
Proof.
  intros [Hr Hc]. unfold np_binop. rewrite <- Hr, <- Hc, !bdim_same.
  eexists. split; [reflexivity|]. split; [reflexivity|]. split; [reflexivity|].
  intros i j Hi Hj. cbn [at_]. rewrite !bidx_lt by assumption. reflexivity.
Qed.

Lemma np_sum_ext (a b : ndarray) :
  same_shape a b -> equal_entries a b -> np_sum a = np_sum b.
Proof.
  intros [Hr Hc] Heq. unfold np_sum. rewrite <- Hr, <- Hc.
  apply sum_upto_ext. intros i Hi. apply sum_upto_ext. intros j Hj.
  apply Heq; assumption.
Qed.

Lemma np_mean_ext (a b : ndarray) :
  same_shape a b -> equal_entries a b -> np_mean a = np_mean b.
Proof.
  intros Hsh Heq. unfold np_mean, size.
  rewrite (np_sum_ext a b Hsh Heq). destruct Hsh as [-> ->]. reflexivity.
Qed.

(** The mean of a non-empty array of non-negative entries is a
    non-negative real, zero exactly when the array is. *)
Lemma np_mean_nonneg (a : ndarray) :
  (0 < size a)%nat ->
  (forall i j, (i < rows a)%nat -> (j < cols a)%nat -> 0 <= at_ a i j) ->
  exists m, np_mean a = Fin m /\ 0 <= m /\ (m = 0 <-> is_zero a).
Proof.
  intros Hsz Hpos. unfold np_mean.
  destruct (Nat.eqb_spec (size a) 0) as [E|_]; [lia|].
  assert (Hn : 0 < INR (size a)) by (apply lt_0_INR; lia).
  assert (Hsum : 0 <= np_sum a).
  { apply sum_upto_nonneg. intros i Hi. apply sum_upto_nonneg.
    intros j Hj. apply Hpos; assumption. }
  eexists. split; [reflexivity|]. split.
  { apply Rmult_le_pos; [exact Hsum|]. apply Rlt_le, Rinv_0_lt_compat, Hn. }
  split.
  - intros H. apply (Rmult_eq_compat_r (INR (size a))) in H.
    unfold Rdiv in H. rewrite Rmult_assoc, Rinv_l, Rmult_1_r, Rmult_0_l in H by lra.
    intros i j Hi Hj.
    assert (Hrow : sum_upto (cols a) (fun j => at_ a i j) = 0).
    { apply (sum_upto_zero (rows a)
               (fun i => sum_upto (cols a) (fun j => at_ a i j)));
        [|exact H|exact Hi].
      intros i' Hi'. apply sum_upto_nonneg. intros j' Hj'. apply Hpos; assumption. }
    apply (sum_upto_zero (cols a) (fun j => at_ a i j)); [|exact Hrow|exact Hj].
    intros j' Hj'. apply Hpos; assumption.
  - intros Hz. unfold np_sum.
    rewrite sum_upto_all_zero; [unfold Rdiv; lra|].
    intros i Hi. apply sum_upto_all_zero. intros j Hj. apply Hz; assumption.
Qed.

(** Mean squared and mean absolute error of equal-shaped, non-empty
    images. *)
Lemma mse_mae_spec (a b : ndarray) :
  same_shape a b -> (0 < size a)%nat ->
  exists m e,
    mse a b = Ok (Fin m) /\ mae a b = Ok (Fin e)
    /\ 0 <= m /\ 0 <= e
    /\ (m = 0 <-> equal_entries a b) /\ (e = 0 <-> equal_entries a b).
Proof.
  intros Hsh Hsz. unfold mse, mae, np_sub.
  destruct (np_binop_same_shape Rminus a b Hsh) as (d & -> & Hr & Hc & Hat).
  cbn [mbind result_bind].
  assert (Hszd : (0 < size d)%nat) by (unfold size in *; rewrite Hr, Hc; exact Hsz).
  assert (Hzero : is_zero d <-> equal_entries a b).
  { unfold is_zero, equal_entries. rewrite Hr, Hc. split; intros H i j Hi Hj.
    - specialize (H i j Hi Hj). rewrite Hat in H by assumption. lra.
    - rewrite Hat by assumption. rewrite (H i j Hi Hj). lra. }
  destruct (np_mean_nonneg (np_square d)) as (m & Hm & Hm0 & Hmz).
  { exact Hszd. }
  { intros i j _ _. cbn [at_ np_square np_map]. nra. }
  destruct (np_mean_nonneg (np_abs d)) as (e & He & He0 & Hez).
  { exact Hszd. }
  { intros i j _ _. cbn [at_ np_abs np_map]. apply Rabs_pos. }
  exists m, e. rewrite Hm, He.
  split; [reflexivity|]. split; [reflexivity|].
  split; [exact Hm0|]. split; [exact He0|]. split.
  - rewrite Hmz, <- Hzero. unfold is_zero. cbn [rows cols at_ np_square np_map].
    split; intros H i j Hi Hj; specialize (H i j Hi Hj); nra.
  - rewrite Hez, <- Hzero. unfold is_zero. cbn [rows cols at_ np_abs np_map].
    split; intros H i j Hi Hj; specialize (H i j Hi Hj).
    + destruct (Req_dec (at_ d i j) 0) as [E|NE]; [exact E|].
      apply Rabs_no_R0 in NE. contradiction.
    + rewrite H. apply Rabs_R0.
Qed.

Lemma same_shape_sym (a b : ndarray) : same_shape a b -> same_shape b a.
Proof. intros [Hr Hc]. split; symmetry; assumption. Qed.

Lemma mse_mae_sym (a b : ndarray) :
  same_shape a b -> mse a b = mse b a /\ mae a b = mae b a.
Proof.
  intros Hsh. unfold mse, mae, np_sub.
  destruct (np_binop_same_shape Rminus a b Hsh) as (d & -> & Hr & Hc & Hat).
  destruct (np_binop_same_shape Rminus b a (same_shape_sym a b Hsh))
    as (d' & -> & Hr' & Hc' & Hat').
  cbn [mbind result_bind].
  assert (Hdd : same_shape d d').
  { destruct Hsh as [Hra Hca]. split; congruence. }
  assert (Hopp : forall i j, (i < rows d)%nat -> (j < cols d)%nat ->
                   at_ d i j = - at_ d' i j).
  { intros i j Hi Hj. destruct Hsh as [Hra Hca].
    rewrite Hat, Hat' by congruence. lra. }
  split; f_equal.
  - apply np_mean_ext; [exact Hdd|].
    intros i j Hi Hj. cbn [rows cols at_ np_square np_map] in *.
    rewrite (Hopp i j Hi Hj). lra.
  - apply np_mean_ext; [exact Hdd|].
    intros i j Hi Hj. cbn [rows cols at_ np_abs np_map] in *.
    rewrite (Hopp i j Hi Hj). apply Rabs_Ropp.
Qed.

(** X9. For equal-shaped, non-empty 8-bit images [mse] and [mae]
    return non-negative reals, do not depend on the order of their
    arguments, and each of them is zero exactly when the two images have
    the same entries. *)
Theorem mse_mae_zero_iff_equal (a b : ndarray) :
  same_shape a b -> (0 < size a)%nat -> eight_bit a -> eight_bit b ->
  exists m e,
    mse a b = Ok (Fin m) /\ mae a b = Ok (Fin e)
    /\ mse b a = Ok (Fin m) /\ mae b a = Ok (Fin e)
    /\ 0 <= m /\ 0 <= e
    /\ (m = 0 <-> equal_entries a b) /\ (e = 0 <-> equal_entries a b).
Proof.
  intros Hsh Hsz _ _.
  destruct (mse_mae_spec a b Hsh Hsz) as (m & e & Hm & He & Hrest).
  destruct (mse_mae_sym a b Hsh) as [Hms Hes].
  exists m, e. rewrite <- Hms, <- Hes. auto.
Qed.

(** A 2x2 image and a copy with one sample changed. *)
Definition demo_a : ndarray :=
  mk_array 2 2 (fun i j => INR (i + j)).
Definition demo_b : ndarray :=
  mk_array 2 2 (fun i j => if ((i =? 1) && (j =? 1))%nat then 5 else INR (i + j)).

Lemma eight_bit_demo_a : eight_bit demo_a.
Proof.
  intros i j Hi Hj. cbn [rows cols demo_a at_] in *.
  exists (Z.of_nat (i + j)). split; [lia | apply INR_IZR_INZ].
Qed.

Lemma eight_bit_demo_b : eight_bit demo_b.
Proof.
  intros i j Hi Hj. cbn [rows cols demo_b at_] in *.
  destruct ((i =? 1)%nat && (j =? 1)%nat).
  - exists 5%Z. split; [lia | reflexivity].
  - exists (Z.of_nat (i + j)). split; [lia | apply INR_IZR_INZ].
Qed.

Lemma mse_mae_zero_iff_equal_witness :
  exists m e,
    mse demo_a demo_b = Ok (Fin m) /\ mae demo_a demo_b = Ok (Fin e)
    /\ mse demo_b demo_a = Ok (Fin m) /\ mae demo_b demo_a = Ok (Fin e)
    /\ 0 <= m /\ 0 <= e
    /\ (m = 0 <-> equal_entries demo_a demo_b)
    /\ (e = 0 <-> equal_entries demo_a demo_b).
Proof.
  apply (mse_mae_zero_iff_equal demo_a demo_b).
  - split; reflexivity.
  - unfold size; simpl; lia.
  - exact eight_bit_demo_a.
  - exact eight_bit_demo_b.
Defined.

Lemma sum_upto_le n f g :
  (forall i, (i < n)%nat -> f i <= g i) -> sum_upto n f <= sum_upto n g.
Proof.
  induction n as [|n IH]; intros H; simpl; [lra|].
  assert (sum_upto n f <= sum_upto n g) by (apply IH; intros; apply H; lia).
  assert (f n <= g n) by (apply H; lia). lra.
Qed.

Lemma np_mean_fin (x : ndarray) :
  (0 < size x)%nat -> np_mean x = Fin (np_sum x / INR (size x)).
Proof.
  intros H. unfold np_mean.
  destruct (Nat.eqb_spec (size x) 0); [lia | reflexivity].
Qed.

(** Twice a sum of products is bounded by the two sums of squares. *)
Lemma np_sum_cross_bound (p u v : ndarray) (f g : nat -> nat -> R) :
  same_shape p u -> same_shape p v ->
  (forall i j, (i < rows p)%nat -> (j < cols p)%nat ->
     at_ p i j = f i j * g i j) ->
  (forall i j, (i < rows p)%nat -> (j < cols p)%nat ->
     at_ u i j = f i j ^ 2) ->
  (forall i j, (i < rows p)%nat -> (j < cols p)%nat ->
     at_ v i j = g i j ^ 2) ->
  - (np_sum u + np_sum v) <= 2 * np_sum p <= np_sum u + np_sum v.
Proof.
  intros [Hur Huc] [Hvr Hvc] Hp Hu Hv. unfold np_sum.
  rewrite <- Hur, <- Huc, <- Hvr, <- Hvc.
  rewrite <- Transform.sum_upto_plus, <- Transform.sum_upto_scal.
  assert (Hopp : forall n h, - sum_upto n h = sum_upto n (fun k => - h k)).
  { intros n h. induction n as [|n IH]; simpl; [lra | rewrite <- IH; lra]. }
  rewrite Hopp. split; apply sum_upto_le; intros i Hi.
  - rewrite <- Transform.sum_upto_plus, <- Transform.sum_upto_scal, Hopp.
    apply sum_upto_le. intros j Hj.
    cbv beta. rewrite (Hp i j), (Hu i j), (Hv i j) by assumption.
    pose proof (pow2_ge_0 (f i j + g i j)). nra.
  - rewrite <- Transform.sum_upto_plus, <- Transform.sum_upto_scal.
    apply sum_upto_le. intros j Hj.
    cbv beta. rewrite (Hp i j), (Hu i j), (Hv i j) by assumption.
    pose proof (pow2_ge_0 (f i j - g i j)). nra.
Qed.

Lemma pow_nonzero_pos (x : R) : x <> 0 -> 0 < x ^ 2.
Proof. intros H. pose proof (pow2_ge_0 x). destruct (Req_dec (x ^ 2) 0) as [E|NE]; [|lra].
  exfalso. apply H. simpl in E. nra. Qed.

Lemma ratio_bound (A B A' B' : R) :
  0 < A' -> 0 < B' -> - A' <= A <= A' -> - B' <= B <= B' ->
  - 1 <= (A * B) / (A' * B') <= 1.
Proof.
  intros HA HB [HA1 HA2] [HB1 HB2].
  assert (Hd : 0 < A' * B') by (apply Rmult_lt_0_compat; assumption).
  assert (H1 : A * B <= A' * B') by nra.
  assert (H2 : - (A' * B') <= A * B) by nra.
  split.
  - apply (Rmult_le_reg_r (A' * B')); [exact Hd|].
    unfold Rdiv. rewrite Rmult_assoc, Rinv_l by lra. lra.
  - apply (Rmult_le_reg_r (A' * B')); [exact Hd|].
    unfold Rdiv. rewrite Rmult_assoc, Rinv_l by lra. lra.
Qed.

Lemma ssim_spec (a b : ndarray) (k1 k2 L : R) :
  same_shape a b -> (0 < size a)%nat -> k1 * L <> 0 -> k2 * L <> 0 ->
  exists s, ssim a b k1 k2 L = Ok (Fin s)
            /\ - 1 <= s <= 1
            /\ (equal_entries a b -> s = 1).
Proof.
  intros Hsh Hsz Hk1 Hk2.
  assert (Hsize : size b = size a).
  { destruct Hsh as [Hr Hc]. unfold size. rewrite Hr, Hc. reflexivity. }
  assert (Hszb : (0 < size b)%nat) by (rewrite Hsize; exact Hsz).
  unfold ssim, np_var.
  rewrite (np_mean_fin a Hsz), (np_mean_fin b Hszb), Hsize.
  remember (np_sum a / INR (size a)) as mu1 eqn:Emu1.
  remember (np_sum b / INR (size a)) as mu2 eqn:Emu2.
  destruct (np_binop_same_shape Rmult (np_map (fun x => x - mu1) a)
              (np_map (fun x => x - mu2) b) Hsh)
    as (p & Hp & Hpr & Hpc & Hpat).
  unfold np_mul. rewrite Hp. cbn [mbind result_bind].
  cbn [rows cols np_map] in Hpr, Hpc, Hpat.
  rewrite (np_mean_fin (np_map _ a) Hsz), (np_mean_fin (np_map _ b) Hszb).
  rewrite (np_mean_fin p) by (unfold size in *; rewrite Hpr, Hpc; exact Hsz).
  replace (size (np_map (fun x => Rabs (x - mu1) ^ 2) a)) with (size a)
    by reflexivity.
  replace (size (np_map (fun x => Rabs (x - mu2) ^ 2) b)) with (size a)
    by (rewrite <- Hsize; reflexivity).
  replace (size p) with (size a) by (unfold size; rewrite Hpr, Hpc; reflexivity).
  cbv zeta.
  remember (np_sum (np_map (fun x => Rabs (x - mu1) ^ 2) a)) as U eqn:EU.
  remember (np_sum (np_map (fun x => Rabs (x - mu2) ^ 2) b)) as V eqn:EV.
  remember (np_sum p) as P eqn:EP.
  assert (Hn : 0 < INR (size a)) by (apply lt_0_INR; lia).
  remember (INR (size a)) as n eqn:En.
  assert (Hcross : - (U + V) <= 2 * P <= U + V).
  { subst U V P.
    apply (np_sum_cross_bound p _ _
             (fun i j => at_ a i j - mu1) (fun i j => at_ b i j - mu2)).
    - split; [exact Hpr | exact Hpc].
    - destruct Hsh as [Hr Hc]. split; cbn [rows cols np_map]; congruence.
    - intros i j Hi Hj. apply Hpat; congruence.
    - intros i j _ _. cbn [at_ np_map]. apply pow2_abs.
    - intros i j _ _. cbn [at_ np_map]. apply pow2_abs. }
  assert (HC1 : 0 < (k1 * L) ^ 2) by (apply pow_nonzero_pos; exact Hk1).
  assert (HC2 : 0 < (k2 * L) ^ 2) by (apply pow_nonzero_pos; exact Hk2).
  remember ((k1 * L) ^ 2) as C1. remember ((k2 * L) ^ 2) as C2.
  assert (Hin : 0 < / n) by (apply Rinv_0_lt_compat; exact Hn).
  assert (HA' : 0 < mu1 ^ 2 + mu2 ^ 2 + C1) by nra.
  assert (HB1 : 0 <= (U + V - 2 * P) * / n) by (apply Rmult_le_pos; lra).
  assert (HB2 : 0 <= (U + V + 2 * P) * / n) by (apply Rmult_le_pos; lra).
  assert (HB' : 0 < U / n + V / n + C2) by (unfold Rdiv; nra).
  unfold np_div.
  destruct (Req_dec_T ((mu1 ^ 2 + mu2 ^ 2 + C1) * (U / n + V / n + C2)) 0)
    as [E|NE].
  { exfalso. assert (0 < (mu1 ^ 2 + mu2 ^ 2 + C1) * (U / n + V / n + C2))
      by (apply Rmult_lt_0_compat; assumption). lra. }
  eexists. split; [reflexivity|]. split.
  - apply ratio_bound; try assumption.
    + pose proof (pow2_ge_0 (mu1 + mu2)). pose proof (pow2_ge_0 (mu1 - mu2)).
      split; nra.
    + unfold Rdiv. split; nra.
  - intros Heq.
    assert (Hmu : mu2 = mu1).
    { subst mu1 mu2. f_equal. symmetry. apply np_sum_ext; assumption. }
    assert (HV : V = U).
    { subst U V. rewrite Hmu. symmetry. apply np_sum_ext.
      - exact Hsh.
      - intros i j Hi Hj. cbn [at_ np_map] in *. rewrite (Heq i j Hi Hj).
        reflexivity. }
    assert (HP : P = U).
    { subst U P. apply np_sum_ext.
      - split; [exact Hpr | exact Hpc].
      - intros i j Hi Hj. rewrite Hpat by congruence.
        cbn [at_ np_map]. rewrite pow2_abs, Hmu, (Heq i j) by congruence.
        ring. }
    rewrite HV, HP, Hmu in *.
    apply Rdiv_diag_eq; [exact NE | ring].
Qed.

Lemma stabiliser_nonzero (x : R) : / 10 ^ 50 <= Rabs x <= 10 ^ 50 -> x <> 0.
Proof.
  intros [H _] E. rewrite E, Rabs_R0 in H.
  assert (0 < / 10 ^ 50) by (apply Rinv_0_lt_compat, pow_lt; lra). lra.
Qed.

Lemma stabiliser_default (x : R) :
  1 <= x <= 10 -> / 10 ^ 50 <= Rabs x <= 10 ^ 50.
Proof.
  intros H. rewrite Rabs_right by lra.
  pose proof (pow10_ge_1 50) as H1. pose proof (pow10_ge_1 49) as H2.
  assert (/ 10 ^ 50 <= 1).
  { rewrite <- Rinv_1. apply Rinv_le_contravar; lra. }
  change (10 ^ 50) with (10 * 10 ^ 49) in *. split; nra.
Qed.

(** X10. For equal-shaped, non-empty 8-bit images and stabilising
    constants [k1 * L] and [k2 * L] of magnitude between 1e-50 and 1e50
    (they are 2.55 and 7.65 by default), [ssim] returns a real between
    -1 and 1, and returns 1 when the two images have the same
    entries. *)
Theorem ssim_range (a b : ndarray) (k1 k2 L : R) :
  same_shape a b -> (0 < size a)%nat -> eight_bit a -> eight_bit b ->
  / 10 ^ 50 <= Rabs (k1 * L) <= 10 ^ 50 ->
  / 10 ^ 50 <= Rabs (k2 * L) <= 10 ^ 50 ->
  exists s, ssim a b k1 k2 L = Ok (Fin s)
            /\ - 1 <= s <= 1
            /\ (equal_entries a b -> s = 1).
Proof.
  intros Hsh Hsz _ _ Hk1 Hk2.
  exact (ssim_spec a b k1 k2 L Hsh Hsz
           (stabiliser_nonzero _ Hk1) (stabiliser_nonzero _ Hk2)).
Qed.

Lemma ssim_range_witness :
  exists s, ssim demo_a demo_b (1 / 100) (3 / 100) 255 = Ok (Fin s)
            /\ - 1 <= s <= 1
            /\ (equal_entries demo_a demo_b -> s = 1).
Proof.
  apply (ssim_range demo_a demo_b (1 / 100) (3 / 100) 255).
  - split; reflexivity.
  - unfold size; simpl; lia.
  - exact eight_bit_demo_a.
  - exact eight_bit_demo_b.
  - apply stabiliser_default. lra.
  - apply stabiliser_default. lra.
Defined.


Lemma psnr_of_mse (a b : ndarray) (max_val m : R) :
  mse a b = Ok (Fin m) ->
  psnr a b max_val =
  Ok (if Req_dec_T m 0 then PInf else times10 (np_log10 (max_val ^ 2 / m))).
Proof.
  unfold mse, psnr. destruct (np_sub a b) as [d|e]; cbn [mbind result_bind].
  - intros H. injection H as ->. destruct (Req_dec_T m 0); reflexivity.
  - discriminate.
Qed.





(** X13. On two non-empty 8-bit images with the same entries
    [compare_images] returns the dictionary with [psnr = inf],
    [ssim = 1], [mse = 0] and [mae = 0], and no other key. *)
Theorem compare_images_identical (a b : ndarray) :
  same_shape a b -> (0 < size a)%nat -> eight_bit a -> eight_bit b ->
  equal_entries a b ->
  compare_images a b =
  Ok (<["psnr" := PInf]> (<["ssim" := Fin 1]>
        (<["mse" := Fin 0]> (<["mae" := Fin 0]> ∅)))).
Proof.
  intros Hsh Hsz _ _ Heq.
  destruct (mse_mae_spec a b Hsh Hsz) as (m & e & Hm & He & _ & _ & Hmz & Hez).
  apply Hmz in Heq as Hm0. apply Hez in Heq as He0. subst m e.
  destruct (ssim_spec a b (1 / 100) (3 / 100) 255 Hsh Hsz) as (s & Hs & _ & Hs1);
    [lra | lra |].
  rewrite (Hs1 Heq) in Hs.
  unfold compare_images.
  rewrite (psnr_of_mse a b 255 0 Hm), Hs, Hm, He.
  destruct (Req_dec_T 0 0) as [_|NE]; [reflexivity | contradiction].
Qed.

Lemma compare_images_identical_witness :
  compare_images demo_a demo_a =
  Ok (<["psnr" := PInf]> (<["ssim" := Fin 1]>
        (<["mse" := Fin 0]> (<["mae" := Fin 0]> ∅)))).
Proof.
  apply (compare_images_identical demo_a demo_a).
  - split; reflexivity.
  - unfold size; simpl; lia.
  - exact eight_bit_demo_a.
  - exact eight_bit_demo_a.
  - intros i j _ _. reflexivity.
Defined.

(** X14. For a compressed size of at most [2^62] bytes and a width and
    a height of at most [2^31] pixels, all positive, neither
    [bits_per_pixel] nor [compression_ratio] raises, and
    [bits_per_pixel] of the compressed image times the
    [compression_ratio] of its [width * height] bytes of pixels is 8:
    the two figures determine each other. *)
Theorem bits_per_pixel_times_ratio (compressed_size width height : Z) :
  (0 < compressed_size <= 2 ^ 62)%Z ->
  (0 < width <= 2 ^ 31)%Z -> (0 < height <= 2 ^ 31)%Z ->
  exists bpp ratio,
    bits_per_pixel compressed_size width height = Ok bpp
    /\ compression_ratio (width * height) compressed_size = Ok ratio
    /\ bpp * ratio = 8.
Proof.
  intros Hc Hw Hh. unfold bits_per_pixel, compression_ratio, py_truediv.
  assert (Hwh : (0 < width * height <= 2 ^ 62)%Z) by nia.
  assert (HK : (2 ^ 70 <= 2 ^ 1024 - 2 ^ 970)%Z) by (vm_compute; discriminate).
  set (K := (2 ^ 1024 - 2 ^ 970)%Z) in *.
  change (2 ^ 70)%Z with 1180591620717411303424%Z in HK.
  change (2 ^ 62)%Z with 4611686018427387904%Z in *.
  destruct (Z.eqb_spec (width * height) 0) as [E|_]; [lia|].
  destruct (Z.eqb_spec compressed_size 0) as [E|_]; [lia|].
  destruct (Z.leb_spec (K * Z.abs (width * height)) (Z.abs (compressed_size * 8)))
    as [H|_]; [exfalso; nia|].
  destruct (Z.leb_spec (K * Z.abs compressed_size) (Z.abs (width * height)))
    as [H|_]; [exfalso; nia|].
  eexists _, _. split; [reflexivity|]. split; [reflexivity|].
  rewrite mult_IZR.
  assert (IZR compressed_size <> 0) by (apply not_0_IZR; lia).
  assert (IZR (width * height) <> 0) by (apply not_0_IZR; lia).
  field. split; assumption.
Qed.

Lemma bits_per_pixel_times_ratio_witness :
  exists bpp ratio,
    bits_per_pixel 4096 256 256 = Ok bpp
    /\ compression_ratio (256 * 256) 4096 = Ok ratio
    /\ bpp * ratio = 8.
Proof. apply (bits_per_pixel_times_ratio 4096 256 256); lia. Defined.

End Metrics.

(** ** wavelets.py *)

Module Wavelets.

Import Np.
Open Scope R_scope.
Open Scope string_scope.

(** One level of detail coefficients: [(cH, cV, cD)], which the code
    names [(LH, HL, HH)]. *)
Definition detail : Type := (ndarray * ndarray * ndarray)%type.

(** The dataclass. [LL] is [None] in all but the first element of the
    list [DWT2D] returns. *)
Record WaveletCoeffs : Type := mk_wavelet_coeffs {
  LL : option ndarray;
  LH : ndarray;
  HL : ndarray;
  HH : ndarray
}.

(** *** Display helpers *)

(** [arr.max()] and [arr.min()]: [ValueError] on an empty array. *)
Definition reduce (f : R -> R -> R) (a : ndarray) : result R :=
  match entries a with
  | [] => Raise ValueError
  | x :: xs => Ok (fold_left f xs x)
  end.

Definition np_max : ndarray -> result R := reduce Rmax.
Definition np_min : ndarray -> result R := reduce Rmin.

(** [normalize_for_display]. *)
Definition normalize_for_display (arr : ndarray) : result ndarray :=
  hi ← np_max arr;
  lo ← np_min arr;
  if Req_dec_T hi lo then Ok (Blocks.np_zeros_like arr)
  else Ok (np_map (fun x => 255 * (x - lo) / (hi - lo)) arr).

(** [np.hstack] and [np.vstack] of two 2-D arrays: the other dimension
    must agree. *)
Definition np_hstack (a b : ndarray) : result ndarray :=
  if (rows a =? rows b)%nat then
    Ok (mk_array (rows a) (cols a + cols b)
          (fun i j => if (j <? cols a)%nat then at_ a i j
                      else at_ b i (j - cols a)))
  else Raise ValueError.

Definition np_vstack (a b : ndarray) : result ndarray :=
  if (cols a =? cols b)%nat then
    Ok (mk_array (rows a + rows b) (cols a)
          (fun i j => if (i <? rows a)%nat then at_ a i j
                      else at_ b (i - rows a) j))
  else Raise ValueError.

(** One turn of the loop of [create_subband_composite]: the four
    normalised subbands arranged in a square. *)
Definition quad (LL LH HL HH : ndarray) : result ndarray :=
  LH_norm ← normalize_for_display LH;
  HL_norm ← normalize_for_display HL;
  HH_norm ← normalize_for_display HH;
  LL_norm ← normalize_for_display LL;
  top ← np_hstack LL_norm LH_norm;
  bottom ← np_hstack HL_norm HH_norm;
  np_vstack top bottom.

(** The loop [for LH, HL, HH in coeffs[1:]]. *)
Fixpoint composite_loop (LL : ndarray) (ds : list detail) : result ndarray :=
  match ds with
  | [] => Ok LL
  | (LH, HL, HH) :: rest =>
      LL' ← quad LL LH HL HH;
      composite_loop LL' rest
  end.

Definition create_subband_composite (coeffs : ndarray * list detail)
  : result ndarray :=
  composite_loop (fst coeffs) (snd coeffs).

(** *** The transform, over PyWavelets *)

Section Pywt.

(** [pywt.wavedec2(data, wavelet, level=level)] returns
    [[cA_n, (cH_n, cV_n, cD_n), ..., (cH_1, cV_1, cD_1)]];
    [pywt.waverec2(coeffs, wavelet)] takes such a list.  Both are
    library code, kept abstract here. *)
Variable wavedec2 : ndarray -> string -> Z -> result (ndarray * list detail).
Variable waverec2 : option ndarray * list detail -> string -> result ndarray.

(** The loop [for i in range(1, len(coeffs))] of [DWT2D]: [coeffs[i-1]]
    is read only when [i == 1], where it is [coeffs[0]]. *)
Fixpoint pack (cA : ndarray) (i : nat) (ds : list detail)
  : list WaveletCoeffs :=
  match ds with
  | [] => []
  | (lh, hl, hh) :: rest =>
      mk_wavelet_coeffs (if (i =? 1)%nat then Some cA else None) lh hl hh
      :: pack cA (S i) rest
  end.

Definition set_LL (c : WaveletCoeffs) (a : ndarray) : WaveletCoeffs :=
  mk_wavelet_coeffs (Some a) (LH c) (HL c) (HH c).

Definition DWT2D (image : ndarray) (wavelet : string) (level : Z)
  : result (list WaveletCoeffs) :=
  coeffs ← wavedec2 image wavelet level;
  let result := pack (fst coeffs) 1 (snd coeffs) in
  Ok (match result with
      | [] => []
      | first :: rest => set_LL first (fst coeffs) :: rest
      end).

Definition IDWT2D (coeffs : list WaveletCoeffs) (wavelet : string)
  : result ndarray :=
  match coeffs with
  | [] => Raise IndexError
  | first :: _ =>
      waverec2 (LL first, map (fun c => (LH c, HL c, HH c)) coeffs) wavelet
  end.

Definition mallat_reconstruct (coeffs : option ndarray * list detail)
  (wavelet : string) : result ndarray :=
  waverec2 coeffs wavelet.

(** What [mallat_decompose] returns: the dictionary with the keys
    [coeffs], [subbands] and [composite]. *)
Record decomposition : Type := mk_decomposition {
  coeffs : ndarray * list detail;
  subbands : gmap string ndarray;
  composite : ndarray
}.

(** The loop [for i, (LH, HL, HH) in enumerate(coeffs[1:], 1)], with the
    keys [f'LH{level}'], [f'HL{level}'] and [f'HH{level}']. *)
Fixpoint subband_loop (levels i : Z) (ds : list detail)
  (subbands : gmap string ndarray) : gmap string ndarray :=
  match ds with
  | [] => subbands
  | (LH, HL, HH) :: rest =>
      let level := (levels - i + 1)%Z in
      subband_loop levels (i + 1) rest
        (<["HH" +:+ pretty level := HH]>
           (<["HL" +:+ pretty level := HL]>
              (<["LH" +:+ pretty level := LH]> subbands)))
  end.

Definition mallat_decompose (image : ndarray) (wavelet : string) (levels : Z)
  : result decomposition :=
  coeffs ← wavedec2 image wavelet levels;
  let subbands := subband_loop levels 1 (snd coeffs) {["LL" := fst coeffs]} in
  composite ← create_subband_composite coeffs;
  Ok (mk_decomposition coeffs subbands composite).


Lemma pack_length cA i ds : length (pack cA i ds) = length ds.
Proof.
  revert i. induction ds as [|[[lh hl] hh] rest IH]; intros i; cbn [pack length];
    [reflexivity | rewrite IH; reflexivity].
Qed.

Lemma pack_details cA i ds :
  map (fun c => (LH c, HL c, HH c)) (pack cA i ds) = ds.
Proof.
  revert i. induction ds as [|[[lh hl] hh] rest IH]; intros i; cbn [pack map];
    [reflexivity | rewrite IH; reflexivity].
Qed.

Lemma pack_LL cA i ds k c :
  (1 < i)%nat -> pack cA i ds !! k = Some c -> LL c = None.
Proof.
  revert i k. induction ds as [|[[lh hl] hh] rest IH]; intros i k Hi Hk;
    cbn [pack] in Hk; [discriminate|].
  destruct k as [|k]; cbn in Hk.
  - injection Hk as <-. cbn [LL]. destruct (Nat.eqb_spec i 1); [lia | reflexivity].
  - apply (IH (S i) k); [lia | exact Hk].
Qed.

(** X20. Whenever [pywt.wavedec2] returns at least one detail level,
    [DWT2D] returns one [WaveletCoeffs] per level, in the library's order
    (coarsest first), with the approximation stored in the first element
    only; and [IDWT2D] hands [pywt.waverec2] exactly the list that
    [wavedec2] returned: the round trip through the dataclass loses
    nothing. *)
Theorem IDWT2D_DWT2D_is_pywt_round_trip
  (image : ndarray) (wavelet : string) (level : Z)
  (cA : ndarray) (d : detail) (ds : list detail) :
  wavedec2 image wavelet level = Ok (cA, d :: ds) ->
  exists packed,
    DWT2D image wavelet level = Ok packed
    /\ length packed = S (length ds)
    /\ (forall k c, packed !! k = Some c ->
          LL c = if (k =? 0)%nat then Some cA else None)
    /\ forall wavelet', IDWT2D packed wavelet' =
                        waverec2 (Some cA, d :: ds) wavelet'.
Proof.
  intros Hdec. unfold DWT2D. rewrite Hdec. cbn [mbind result_bind fst snd].
  destruct d as [[lh hl] hh]. cbn [pack Nat.eqb].
  eexists. split; [reflexivity|]. split; [|split].
  - cbn [length]. rewrite pack_length. reflexivity.
  - intros k c Hk. destruct k as [|k]; cbn in Hk.
    + injection Hk as <-. reflexivity.
    + cbn [Nat.eqb]. apply (pack_LL cA 2 ds k c); [lia | exact Hk].
  - intros w. cbn [IDWT2D set_LL LL LH HL HH map]. rewrite pack_details.
    reflexivity.
Qed.

(** X21. [DWT2D] has no check of its own: it raises exactly when
    [pywt.wavedec2] raises, with the same exception.  When the library
    returns the approximation alone (no detail level), [DWT2D] returns
    the empty list, the approximation is dropped, and [IDWT2D] of that
    list raises [IndexError]. *)
Theorem DWT2D_defers_to_pywt (image : ndarray) (wavelet : string) (level : Z) :
  (forall e, DWT2D image wavelet level = Raise e
             <-> wavedec2 image wavelet level = Raise e)
  /\ (forall cA, wavedec2 image wavelet level = Ok (cA, []) ->
        DWT2D image wavelet level = Ok []
        /\ forall wavelet', IDWT2D [] wavelet' = Raise IndexError).
Proof.
  split.
  - intros e. unfold DWT2D.
    destruct (wavedec2 image wavelet level) as [c|e'];
      cbn [mbind result_bind]; split; intros H; try discriminate; congruence.
  - intros cA Hdec. unfold DWT2D. rewrite Hdec. split; reflexivity.
Qed.

(** A key that no later turn of the loop writes keeps its value. *)
Lemma subband_loop_other (levels : Z) (ds : list detail) :
  forall (i : Z) (m : gmap string ndarray) (key : string),
  (forall j, (i <= j)%Z ->
     key <> "LH" +:+ pretty (levels - j + 1)%Z
     /\ key <> "HL" +:+ pretty (levels - j + 1)%Z
     /\ key <> "HH" +:+ pretty (levels - j + 1)%Z) ->
  subband_loop levels i ds m !! key = m !! key.
Proof.
  induction ds as [|[[lh hl] hh] rest IH]; intros i m key Hkey;
    cbn [subband_loop]; [reflexivity|].
  rewrite IH by (intros j Hj; apply Hkey; lia).
  destruct (Hkey i) as (H1 & H2 & H3); [lia|].
  rewrite !lookup_insert_ne by congruence. reflexivity.
Qed.

Lemma subband_key_inj (tag tag' : string) (a b : Z) :
  String.length tag = 2%nat -> String.length tag' = 2%nat ->
  tag +:+ pretty a = tag' +:+ pretty b -> tag = tag' /\ a = b.
Proof.
  destruct tag as [|c1 [|c2 [|? ?]]]; try discriminate.
  destruct tag' as [|c1' [|c2' [|? ?]]]; try discriminate.
  intros _ _ H. cbn in H. injection H as -> -> H.
  split; [reflexivity|]. apply (inj pretty), H.
Qed.

Lemma subband_loop_lookup (levels : Z) (ds : list detail) :
  forall (i : Z) (m : gmap string ndarray) (k : nat) (lh hl hh : ndarray),
  ds !! k = Some (lh, hl, hh) ->
  let level := (levels - (i + Z.of_nat k) + 1)%Z in
  subband_loop levels i ds m !! ("LH" +:+ pretty level) = Some lh
  /\ subband_loop levels i ds m !! ("HL" +:+ pretty level) = Some hl
  /\ subband_loop levels i ds m !! ("HH" +:+ pretty level) = Some hh.
Proof.
  induction ds as [|[[lh0 hl0] hh0] rest IH]; intros i m k lh hl hh Hk;
    [discriminate|].
  destruct k as [|k]; cbn in Hk.
  - injection Hk as -> -> ->. cbv zeta. cbn [subband_loop].
    replace (levels - (i + Z.of_nat 0) + 1)%Z with (levels - i + 1)%Z by lia.
    assert (Hfresh : forall tag, String.length tag = 2%nat ->
              forall j, (i + 1 <= j)%Z ->
                tag +:+ pretty (levels - i + 1)%Z
                  <> "LH" +:+ pretty (levels - j + 1)%Z
                /\ tag +:+ pretty (levels - i + 1)%Z
                  <> "HL" +:+ pretty (levels - j + 1)%Z
                /\ tag +:+ pretty (levels - i + 1)%Z
                  <> "HH" +:+ pretty (levels - j + 1)%Z).
    { intros tag Htag j Hj.
      repeat split; intros H; apply subband_key_inj in H as [_ H];
        try reflexivity; try exact Htag; lia. }
    rewrite !subband_loop_other by (apply Hfresh; reflexivity).
    split; [|split].
    + rewrite lookup_insert_ne by discriminate.
      rewrite lookup_insert_ne by discriminate. apply lookup_insert_eq.
    + rewrite lookup_insert_ne by discriminate. apply lookup_insert_eq.
    + apply lookup_insert_eq.
  - cbv zeta. cbn [subband_loop].
    replace (levels - (i + Z.of_nat (S k)) + 1)%Z
      with (levels - ((i + 1) + Z.of_nat k) + 1)%Z by lia.
    apply (IH (i + 1)%Z _ k lh hl hh Hk).
Qed.

(** X25. [mallat_decompose] names the subbands from the finest level
    up: with the library's list [[cA, d_0, ..., d_(n-1)]] (coarsest
    first), the dictionary maps LL to [cA] and the keys [LH], [HL], [HH]
    followed by the decimal [levels - k] to the three arrays of [d_k];
    no key overwrites another. *)
Theorem mallat_decompose_subbands
  (image : ndarray) (wavelet : string) (levels : Z)
  (cA : ndarray) (ds : list detail) (picture : ndarray) :
  wavedec2 image wavelet levels = Ok (cA, ds) ->
  create_subband_composite (cA, ds) = Ok picture ->
  exists r,
    mallat_decompose image wavelet levels = Ok r
    /\ coeffs r = (cA, ds) /\ composite r = picture
    /\ subbands r !! "LL" = Some cA
    /\ forall (k : nat) (lh hl hh : ndarray),
         ds !! k = Some (lh, hl, hh) ->
         let level := (levels - Z.of_nat k)%Z in
         subbands r !! ("LH" +:+ pretty level) = Some lh
         /\ subbands r !! ("HL" +:+ pretty level) = Some hl
         /\ subbands r !! ("HH" +:+ pretty level) = Some hh.
Proof.
  intros Hdec Hpic. unfold mallat_decompose. rewrite Hdec.
  cbn [mbind result_bind]. rewrite Hpic. cbn [mbind result_bind fst snd].
  eexists. split; [reflexivity|]. cbn [coeffs composite subbands].
  split; [reflexivity|]. split; [reflexivity|]. split.
  - rewrite subband_loop_other; [apply lookup_singleton_eq|].
    intros j _. repeat split; discriminate.
  - intros k lh hl hh Hk. cbv zeta.
    replace (levels - Z.of_nat k)%Z with (levels - (1 + Z.of_nat k) + 1)%Z by lia.
    apply (subband_loop_lookup levels ds 1 _ k lh hl hh Hk).
Qed.

End Pywt.

(** A toy decomposition with which the theorems of the section can be
    instantiated: one level whose four subbands are all the image. *)
Definition toy_wavedec2 (image : ndarray) (_ : string) (_ : Z)
  : result (ndarray * list detail) :=
  Ok (image, [(image, image, image)]).

Definition toy_waverec2 (coeffs : option ndarray * list detail) (_ : string)
  : result ndarray :=
  match fst coeffs with
  | Some a => Ok a
  | None => Raise ValueError
  end.

Lemma IDWT2D_DWT2D_is_pywt_round_trip_witness :
  exists packed,
    DWT2D toy_wavedec2 Metrics.demo_a "haar" 1 = Ok packed
    /\ length packed = 1%nat
    /\ (forall k c, packed !! k = Some c ->
          LL c = if (k =? 0)%nat then Some Metrics.demo_a else None)
    /\ forall wavelet', IDWT2D toy_waverec2 packed wavelet' =
                        toy_waverec2
                          (Some Metrics.demo_a,
                           [(Metrics.demo_a, Metrics.demo_a, Metrics.demo_a)])
                          wavelet'.
Proof.
  apply (IDWT2D_DWT2D_is_pywt_round_trip toy_wavedec2 toy_waverec2
           Metrics.demo_a "haar" 1 Metrics.demo_a
           (Metrics.demo_a, Metrics.demo_a, Metrics.demo_a) []).
  reflexivity.
Defined.

(** *** Normalisation and the composite picture *)

Lemma fold_max_spec (xs : list R) :
  forall x, (forall y, In y (x :: xs) -> y <= fold_left Rmax xs x)
            /\ In (fold_left Rmax xs x) (x :: xs).
Proof.
  induction xs as [|z zs IH]; intros x; cbn [fold_left].
  - split; [|left; reflexivity]. intros y [<-|[]]. lra.
  - destruct (IH (Rmax x z)) as [Hle Hin]. split.
    + intros y Hy. pose proof (Rmax_l x z). pose proof (Rmax_r x z).
      assert (Hm : Rmax x z <= fold_left Rmax zs (Rmax x z))
        by (apply Hle; left; reflexivity).
      destruct Hy as [<-|[<-|Hy]]; [lra | lra |].
      apply Hle. right. exact Hy.
    + destruct Hin as [Heq|Hin]; [|right; right; exact Hin].
      rewrite <- Heq. unfold Rmax. destruct (Rle_dec x z).
      * right. left. reflexivity.
      * left. reflexivity.
Qed.

Lemma fold_min_spec (xs : list R) :
  forall x, (forall y, In y (x :: xs) -> fold_left Rmin xs x <= y)
            /\ In (fold_left Rmin xs x) (x :: xs).
Proof.
  induction xs as [|z zs IH]; intros x; cbn [fold_left].
  - split; [|left; reflexivity]. intros y [<-|[]]. lra.
  - destruct (IH (Rmin x z)) as [Hle Hin]. split.
    + intros y Hy. pose proof (Rmin_l x z). pose proof (Rmin_r x z).
      assert (Hm : fold_left Rmin zs (Rmin x z) <= Rmin x z)
        by (apply Hle; left; reflexivity).
      destruct Hy as [<-|[<-|Hy]]; [lra | lra |].
      apply Hle. right. exact Hy.
    + destruct Hin as [Heq|Hin]; [|right; right; exact Hin].
      rewrite <- Heq. unfold Rmin. destruct (Rle_dec x z).
      * left. reflexivity.
      * right. left. reflexivity.
Qed.

(** On a non-empty array [arr.min()] and [arr.max()] are entries of the
    array that bound all the others. *)
Lemma np_min_max_spec (arr : ndarray) :
  (0 < size arr)%nat ->
  exists lo hi,
    np_min arr = Ok lo /\ np_max arr = Ok hi
    /\ (forall i j, (i < rows arr)%nat -> (j < cols arr)%nat ->
          lo <= at_ arr i j <= hi)
    /\ (exists i j, (i < rows arr)%nat /\ (j < cols arr)%nat /\ lo = at_ arr i j)
    /\ (exists i j, (i < rows arr)%nat /\ (j < cols arr)%nat /\ hi = at_ arr i j).
Proof.
  intros Hsz. unfold np_min, np_max, reduce.
  pose proof (entries_length arr) as Hlen.
  pose proof (entries_in arr) as Hin. pose proof (in_entries arr) as Hfrom.
  destruct (entries arr) as [|x xs]; [cbn in Hlen; lia|].
  destruct (fold_min_spec xs x) as [Hlo Hlo_in].
  destruct (fold_max_spec xs x) as [Hhi Hhi_in].
  eexists _, _. split; [reflexivity|]. split; [reflexivity|]. split; [|split].
  - intros i j Hi Hj. split; [apply Hlo | apply Hhi]; apply Hin; assumption.
  - apply Hfrom, Hlo_in.
  - apply Hfrom, Hhi_in.
Qed.

Lemma normalize_spec (arr : ndarray) :
  (0 < size arr)%nat ->
  exists lo hi res,
    np_min arr = Ok lo /\ np_max arr = Ok hi
    /\ normalize_for_display arr = Ok res
    /\ rows res = rows arr /\ cols res = cols arr
    /\ (forall i j, (i < rows arr)%nat -> (j < cols arr)%nat ->
          lo <= at_ arr i j <= hi /\ 0 <= at_ res i j <= 255)
    /\ (lo = hi -> is_zero res)
    /\ (lo < hi ->
        (exists i j, (i < rows arr)%nat /\ (j < cols arr)%nat
                     /\ at_ arr i j = lo /\ at_ res i j = 0)
        /\ (exists i j, (i < rows arr)%nat /\ (j < cols arr)%nat
                        /\ at_ arr i j = hi /\ at_ res i j = 255)).
Proof.
  intros Hsz.
  destruct (np_min_max_spec arr Hsz)
    as (lo & hi & Hmin & Hmax & Hbound & (i0 & j0 & Hi0 & Hj0 & Hlo)
        & (i1 & j1 & Hi1 & Hj1 & Hhi)).
  exists lo, hi. unfold normalize_for_display. rewrite Hmin, Hmax.
  cbn [mbind result_bind].
  destruct (Req_dec_T hi lo) as [E|NE].
  - exists (Blocks.np_zeros_like arr).
    repeat (split; [reflexivity|]). split; [|split].
    + intros i j Hi Hj. split; [apply Hbound; assumption|].
      cbn [at_ Blocks.np_zeros_like]. lra.
    + intros _ i j _ _. reflexivity.
    + intros Hlt. lra.
  - assert (Hlt : lo < hi).
    { pose proof (Hbound i0 j0 Hi0 Hj0). lra. }
    exists (np_map (fun x => 255 * (x - lo) / (hi - lo)) arr).
    repeat (split; [reflexivity|]). split; [|split].
    + intros i j Hi Hj. pose proof (Hbound i j Hi Hj) as Hb.
      split; [exact Hb|]. cbn [at_ np_map].
      assert (Hd : 0 < / (hi - lo)) by (apply Rinv_0_lt_compat; lra).
      assert (H1 : (hi - lo) * / (hi - lo) = 1) by (apply Rinv_r; lra).
      unfold Rdiv. split; nra.
    + intros E. lra.
    + intros _. split.
      * exists i0, j0. repeat (split; [assumption|]). split; [auto|].
        cbn [at_ np_map]. rewrite <- Hlo. unfold Rdiv.
        rewrite Rminus_diag. ring.
      * exists i1, j1. repeat (split; [assumption|]). split; [auto|].
        cbn [at_ np_map]. rewrite <- Hhi. field. lra.
Qed.



(** The shape of an array. *)
Definition has_shape (a : ndarray) (h w : nat) : Prop :=
  rows a = h /\ cols a = w.

(** The detail levels, coarsest first, double in size from [h x w]. *)
Fixpoint nested (h w : nat) (ds : list detail) : Prop :=
  match ds with
  | [] => True
  | (LH, HL, HH) :: rest =>
      has_shape LH h w /\ has_shape HL h w /\ has_shape HH h w
      /\ nested (2 * h) (2 * w) rest
  end.

(** Every entry lies in [0, 255]. *)
Definition displayable (a : ndarray) : Prop :=
  forall i j, (i < rows a)%nat -> (j < cols a)%nat -> 0 <= at_ a i j <= 255.

Lemma normalize_displayable (arr : ndarray) (h w : nat) :
  (0 < h)%nat -> (0 < w)%nat -> has_shape arr h w ->
  exists res, normalize_for_display arr = Ok res
              /\ has_shape res h w /\ displayable res.
Proof.
  intros Hh Hw [Hr Hc].
  destruct (normalize_spec arr) as (lo & hi & res & _ & _ & Hrun & Hrr & Hrc & Hb & _).
  { unfold size. rewrite Hr, Hc. lia. }
  exists res. split; [exact Hrun|]. split; [split; congruence|].
  intros i j Hi Hj. apply Hb; congruence.
Qed.

Lemma quad_spec (LL LH HL HH : ndarray) (h w : nat) :
  (0 < h)%nat -> (0 < w)%nat ->
  has_shape LL h w -> has_shape LH h w -> has_shape HL h w -> has_shape HH h w ->
  exists q, quad LL LH HL HH = Ok q
            /\ has_shape q (2 * h) (2 * w) /\ displayable q.
Proof.
  intros Hh Hw HLL HLH HHL HHH. unfold quad.
  destruct (normalize_displayable LH h w Hh Hw HLH) as (lh & -> & [Hlhr Hlhc] & Dlh).
  destruct (normalize_displayable HL h w Hh Hw HHL) as (hl & -> & [Hhlr Hhlc] & Dhl).
  destruct (normalize_displayable HH h w Hh Hw HHH) as (hh & -> & [Hhhr Hhhc] & Dhh).
  destruct (normalize_displayable LL h w Hh Hw HLL) as (ll & -> & [Hllr Hllc] & Dll).
  cbn [mbind result_bind]. unfold np_hstack.
  rewrite Hllr, Hlhr, Hhlr, Hhhr, Nat.eqb_refl. cbn [mbind result_bind].
  unfold np_vstack. cbn [rows cols]. rewrite Hllc, Hlhc, Hhlc, Hhhc, Nat.eqb_refl.
  eexists. split; [reflexivity|]. split; [split; cbn [rows cols]; lia|].
  intros i j Hi Hj. cbn [rows cols at_] in *.
  destruct (Nat.ltb_spec i h); destruct (Nat.ltb_spec j w).
  - apply Dll; lia.
  - apply Dlh; lia.
  - apply Dhl; lia.
  - apply Dhh; lia.
Qed.

Lemma composite_loop_spec (ds : list detail) :
  forall (LL : ndarray) (h w : nat),
  (0 < h)%nat -> (0 < w)%nat -> has_shape LL h w -> nested h w ds ->
  exists res, composite_loop LL ds = Ok res
              /\ has_shape res (2 ^ length ds * h) (2 ^ length ds * w)
              /\ (ds <> [] \/ displayable LL -> displayable res).
Proof.
  induction ds as [|[[LH HL] HH] rest IH]; intros LL h w Hh Hw HLL Hn.
  - exists LL. split; [reflexivity|]. split.
    + destruct HLL as [Hr Hc]. split; cbn [length Nat.pow]; lia.
    + intros [H|H]; [contradiction | exact H].
  - destruct Hn as (HLH & HHL & HHH & Hrest). cbn [composite_loop].
    destruct (quad_spec LL LH HL HH h w Hh Hw HLL HLH HHL HHH) as (q & -> & Hq & Dq).
    cbn [mbind result_bind].
    destruct (IH q (2 * h)%nat (2 * w)%nat) as (res & Hrun & [Hr Hc] & Hd);
      [lia | lia | exact Hq | exact Hrest |].
    exists res. split; [exact Hrun|]. split.
    + cbn [length Nat.pow]. split; lia.
    + intros _. apply Hd. right. exact Dq.
Qed.



(** X24. [create_subband_composite] raises [ValueError] when the first
    detail level does not fit the approximation: [LH] has not the rows of
    the approximation, [HH] has not the rows of [HL], or the two halves
    differ in width. *)
Theorem create_subband_composite_misfit
  (cA LH HL HH : ndarray) (rest : list detail) :
  (0 < size cA)%nat -> (0 < size LH)%nat ->
  (0 < size HL)%nat -> (0 < size HH)%nat ->
  rows LH <> rows cA \/ rows HH <> rows HL
  \/ (cols cA + cols LH <> cols HL + cols HH)%nat ->
  create_subband_composite (cA, (LH, HL, HH) :: rest) = Raise ValueError.
Proof.
  intros HcA HLH HHL HHH Hmis.
  unfold create_subband_composite. cbn [fst snd composite_loop]. unfold quad.
  destruct (normalize_spec LH HLH) as (? & ? & lh & _ & _ & -> & Hlhr & Hlhc & _).
  destruct (normalize_spec HL HHL) as (? & ? & hl & _ & _ & -> & Hhlr & Hhlc & _).
  destruct (normalize_spec HH HHH) as (? & ? & hh & _ & _ & -> & Hhhr & Hhhc & _).
  destruct (normalize_spec cA HcA) as (? & ? & ll & _ & _ & -> & Hllr & Hllc & _).
  cbn [mbind result_bind]. unfold np_hstack.
  rewrite Hllr, Hlhr, Hhlr, Hhhr.
  destruct (Nat.eqb_spec (rows cA) (rows LH)) as [E1|N1]; [|reflexivity].
  cbn [mbind result_bind].
  destruct (Nat.eqb_spec (rows HL) (rows HH)) as [E2|N2]; [|reflexivity].
  cbn [mbind result_bind]. unfold np_vstack. cbn [rows cols].
  rewrite Hllc, Hlhc, Hhlc, Hhhc.
  destruct (Nat.eqb_spec (cols cA + cols LH) (cols HL + cols HH)) as [E3|N3];
    [|reflexivity].
  exfalso. destruct Hmis as [H|[H|H]]; [apply H | apply H | apply H];
    congruence.
Qed.

Lemma create_subband_composite_misfit_witness :
  create_subband_composite
    (Metrics.demo_a, [(Metrics.np_ones 3 3, Metrics.np_ones 3 3, Metrics.np_ones 3 3)])
  = Raise ValueError.
Proof.
  apply (create_subband_composite_misfit Metrics.demo_a
           (Metrics.np_ones 3 3) (Metrics.np_ones 3 3) (Metrics.np_ones 3 3) []);
    unfold size; simpl; lia.
Defined.

Lemma mallat_decompose_subbands_witness :
  exists r,
    mallat_decompose toy_wavedec2 Metrics.demo_a "haar" 1 = Ok r
    /\ subbands r !! "LL" = Some Metrics.demo_a
    /\ subbands r !! "HH1" = Some Metrics.demo_a.
Proof.
  destruct (composite_loop_spec
              [(Metrics.demo_a, Metrics.demo_a, Metrics.demo_a)]
              Metrics.demo_a 2 2) as (picture & Hpicture & _);
    [lia | lia | split; reflexivity | repeat split |].
  destruct (mallat_decompose_subbands toy_wavedec2 Metrics.demo_a "haar" 1
              Metrics.demo_a [(Metrics.demo_a, Metrics.demo_a, Metrics.demo_a)]
              picture eq_refl Hpicture)
    as (r & Hr & _ & _ & HLL & Hsub).
  exists r. split; [exact Hr|]. split; [exact HLL|].
  exact (proj2 (proj2 (Hsub 0%nat Metrics.demo_a Metrics.demo_a Metrics.demo_a
                         eq_refl))).
Defined.

End Wavelets.

(** ** denoising.py *)

Module Denoising.

Import Np.
Open Scope R_scope.
Open Scope string_scope.

(** *** Thresholds *)

(** numpy takes a Python [int] as an [int64] or a [uint64].  A larger
    one becomes an object array, on which [np.log] raises [TypeError]. *)
Definition numpy_int (n : Z) : bool :=
  ((- 2 ^ 63 <=? n) && (n <=? 2 ^ 64 - 1))%Z.

(** [sigma * np.sqrt(2 * np.log(n_samples))] for an integer numpy can
    take.  For [n_samples <= 0] the logarithm is [-inf] or NaN and the
    product is NaN (numpy warns, it does not raise). *)
Definition universal_value (sigma : R) (n_samples : Z) : pyfloat :=
  if (1 <=? n_samples)%Z then Fin (sigma * R_sqrt.sqrt (2 * ln (IZR n_samples)))
  else NaN.

Definition universal_threshold (sigma : R) (n_samples : Z) : result pyfloat :=
  if numpy_int n_samples then Ok (universal_value sigma n_samples)
  else Raise TypeError.

(** [x * factor] on a result that may be NaN. *)
Definition scaled (x : pyfloat) (factor : R) : pyfloat :=
  match x with
  | Fin r => Fin (r * factor)
  | other => other
  end.

(** [compute_threshold(sigma, n_samples, method)]: the chain of
    [if]/[elif] on the method name, with its final [else] branch. *)
Definition compute_threshold (sigma : R) (n_samples : Z) (method : string)
  : result pyfloat :=
  if String.eqb method "universal" then
    universal_threshold sigma n_samples
  else if String.eqb method "sure" then
    u ← universal_threshold sigma n_samples;
    Ok (scaled u (8 / 10))
  else if String.eqb method "bayes" then
    u ← universal_threshold sigma n_samples;
    Ok (scaled u (6 / 10))
  else
    universal_threshold sigma n_samples.

(** The method names the docstring lists. *)
Definition recognized (method : string) : Prop :=
  method = "universal" \/ method = "sure" \/ method = "bayes".

(** C7, as stated, fails: an unknown method name does not raise, the
    call returns the universal threshold. *)
Lemma compute_threshold_unknown_counterexample :
  ~ recognized "median"
  /\ compute_threshold 1 2 "median" = Ok (Fin (1 * R_sqrt.sqrt (2 * ln 2))).
Proof.
  split.
  - intros [H|[H|H]]; discriminate H.
  - reflexivity.
Qed.

(** C7, amended.  For every sigma and sample count, a method name other
    than universal, sure and bayes is not rejected: [compute_threshold]
    does what it does for "universal".  It returns a value when the
    sample count is an integer numpy can take (from [-2^63] to
    [2^64 - 1]); beyond, [np.log] raises [TypeError], whatever the
    method.  It never raises [InvalidParameter]. *)
Theorem compute_threshold_unknown_fallback
  (sigma : R) (n_samples : Z) (method : string) :
  ~ recognized method ->
  compute_threshold sigma n_samples method
  = compute_threshold sigma n_samples "universal"
  /\ (numpy_int n_samples = true ->
      exists v, compute_threshold sigma n_samples method = Ok v)
  /\ (numpy_int n_samples = false ->
      compute_threshold sigma n_samples method = Raise TypeError)
  /\ compute_threshold sigma n_samples method <> Raise InvalidParameter.
Proof.
  intros Hun. unfold compute_threshold.
  destruct (String.eqb_spec method "universal") as [E|_].
  { exfalso. apply Hun. left. exact E. }
  destruct (String.eqb_spec method "sure") as [E|_].
  { exfalso. apply Hun. right. left. exact E. }
  destruct (String.eqb_spec method "bayes") as [E|_].
  { exfalso. apply Hun. right. right. exact E. }
  change (String.eqb "universal" "universal") with true. cbv iota.
  unfold universal_threshold.
  split; [reflexivity|]. split; [|split].
  - intros ->. eexists. reflexivity.
  - intros ->. reflexivity.
  - destruct (numpy_int n_samples); discriminate.
Qed.

Lemma compute_threshold_unknown_fallback_witness :
  ~ recognized "visu"
  /\ compute_threshold 30 65536 "visu" = compute_threshold 30 65536 "universal"
  /\ exists v, compute_threshold 30 65536 "visu" = Ok v.
Proof.
  assert (H : ~ recognized "visu") by (intros [H|[H|H]]; discriminate H).
  split; [exact H|].
  destruct (compute_threshold_unknown_fallback 30 65536 "visu" H)
    as (Hsame & Hok & _).
  split; [exact Hsame | apply Hok; reflexivity].
Defined.

Lemma universal_threshold_mono (sigma : R) (n n' : Z) :
  0 <= sigma -> (1 <= n)%Z -> (n <= n')%Z -> (n' <= 2 ^ 64 - 1)%Z ->
  exists u u', universal_threshold sigma n = Ok (Fin u)
               /\ universal_threshold sigma n' = Ok (Fin u')
               /\ 0 <= u /\ u <= u'.
Proof.
  intros Hs Hn Hnn' Hmax. unfold universal_threshold, numpy_int, universal_value.
  change (2 ^ 64 - 1)%Z with 18446744073709551615%Z in *.
  change (- 2 ^ 63)%Z with (-9223372036854775808)%Z.
  destruct (Z.leb_spec (-9223372036854775808) n) as [_|H]; [|lia].
  destruct (Z.leb_spec n 18446744073709551615) as [_|H]; [|lia].
  destruct (Z.leb_spec (-9223372036854775808) n') as [_|H]; [|lia].
  destruct (Z.leb_spec n' 18446744073709551615) as [_|H]; [|lia].
  cbn [andb].
  destruct (Z.leb_spec 1 n) as [_|H]; [|lia].
  destruct (Z.leb_spec 1 n') as [_|H]; [|lia].
  eexists _, _. split; [reflexivity|]. split; [reflexivity|]. split.
  - apply Rmult_le_pos; [exact Hs | apply sqrt_pos].
  - apply Rmult_le_compat_l; [exact Hs|].
    apply sqrt_le_1_alt.
    assert (H1 : 0 < IZR n) by (apply IZR_lt; lia).
    assert (H2 : IZR n <= IZR n') by (apply IZR_le; lia).
    destruct H2 as [Hlt|Heq].
    + pose proof (ln_increasing _ _ H1 Hlt). lra.
    + rewrite Heq. lra.
Qed.

(** X15. For a sigma between 0 and 1e300 and sample counts from 1 to
    [2^64 - 1], the three methods return reals ordered as
    [0 <= bayes <= sure <= universal], and the universal threshold does
    not decrease when the number of samples grows. *)
Theorem compute_threshold_ordering (sigma : R) (n n' : Z) :
  0 <= sigma <= 10 ^ 300 ->
  (1 <= n)%Z -> (n <= n')%Z -> (n' <= 2 ^ 64 - 1)%Z ->
  exists u s b u',
    compute_threshold sigma n "universal" = Ok (Fin u)
    /\ compute_threshold sigma n "sure" = Ok (Fin s)
    /\ compute_threshold sigma n "bayes" = Ok (Fin b)
    /\ compute_threshold sigma n' "universal" = Ok (Fin u')
    /\ 0 <= b /\ b <= s /\ s <= u /\ u <= u'.
Proof.
  intros [Hs _] Hn Hnn' Hmax.
  destruct (universal_threshold_mono sigma n n' Hs Hn Hnn' Hmax)
    as (u & u' & Hu & Hu' & Hpos & Hle).
  exists u, (u * (8 / 10)), (u * (6 / 10)), u'.
  unfold compute_threshold. cbn [String.eqb Ascii.eqb Bool.eqb].
  rewrite Hu, Hu'. cbn [mbind result_bind scaled].
  repeat (split; [reflexivity|]). repeat split; lra.
Qed.

Lemma compute_threshold_ordering_witness :
  exists u s b u',
    compute_threshold 25 4096 "universal" = Ok (Fin u)
    /\ compute_threshold 25 4096 "sure" = Ok (Fin s)
    /\ compute_threshold 25 4096 "bayes" = Ok (Fin b)
    /\ compute_threshold 25 65536 "universal" = Ok (Fin u')
    /\ 0 <= b /\ b <= s /\ s <= u /\ u <= u'.
Proof.
  apply (compute_threshold_ordering 25 4096 65536); try lia.
  pose proof (Metrics.pow10_ge_1 298).
  change (10 ^ 300) with (10 * (10 * 10 ^ 298)). nra.
Defined.

(** *** Thresholding of a coefficient structure *)

(** A coefficient array: a [float64] array whose entries may be NaN or
    infinite, which [pywt.threshold] can produce. *)
Record farray : Type := mk_farray {
  frows : nat;
  fcols : nat;
  fat : nat -> nat -> pyfloat
}.

(** An array of reals as a coefficient array. *)
Definition of_ndarray (a : ndarray) : farray :=
  mk_farray (rows a) (cols a) (fun i j => Fin (at_ a i j)).

Definition farray_map (f : pyfloat -> pyfloat) (a : farray) : farray :=
  mk_farray (frows a) (fcols a) (fun i j => f (fat a i j)).

(** Python objects: every array lives in the store under a reference;
    lists and tuples hold references, so two structures may share an
    array. *)
Definition ref : Type := positive.
Definition store : Type := gmap ref farray.

#[global] Instance farray_inhabited : Inhabited farray :=
  populate (mk_farray 0 0 (fun _ _ => NaN)).

(** A new array object. *)
Definition alloc (st : store) (a : farray) : ref * store :=
  let l := fresh (dom st) in (l, <[l := a]> st).

(** The structure [pywt.wavedec2] returns: [[cA, (cH, cV, cD), ...]],
    the approximation first, then one tuple of detail arrays per level. *)
Record coeff_list : Type := mk_coeffs {
  cA : ref;
  details : list (list ref)
}.

(** [np.sign]. *)
Definition np_sign (x : R) : R :=
  if Rlt_dec 0 x then 1 else if Rlt_dec x 0 then -1 else 0.

(** The [float64] operations of PyWavelets' soft thresholding, on one
    entry: [np.absolute], [value / magnitude] (numpy's division: a zero
    magnitude gives an infinity, or NaN for [0 / 0]), [1 - q],
    [clip(min=0)] and the product. *)
Definition pf_abs (x : pyfloat) : pyfloat :=
  match x with
  | Fin r => Fin (Rabs r)
  | PInf | NInf => PInf
  | NaN => NaN
  end.

Definition pf_rdiv (value : R) (magnitude : pyfloat) : pyfloat :=
  match magnitude with
  | Fin m =>
      if Req_dec_T m 0 then
        if Rlt_dec 0 value then PInf
        else if Rlt_dec value 0 then NInf
        else NaN
      else Fin (value / m)
  | PInf | NInf => Fin 0
  | NaN => NaN
  end.

Definition pf_one_minus (q : pyfloat) : pyfloat :=
  match q with
  | Fin r => Fin (1 - r)
  | PInf => NInf
  | NInf => PInf
  | NaN => NaN
  end.

Definition pf_clip_min0 (w : pyfloat) : pyfloat :=
  match w with
  | Fin r => Fin (Rmax r 0)
  | PInf => PInf
  | NInf => Fin 0
  | NaN => NaN
  end.

(** The sign of an infinity times a real: NaN for zero. *)
Definition pf_signed_inf (positive : bool) (r : R) : pyfloat :=
  if Rlt_dec 0 r then (if positive then PInf else NInf)
  else if Rlt_dec r 0 then (if positive then NInf else PInf)
  else NaN.

Definition pf_mul (x y : pyfloat) : pyfloat :=
  match x, y with
  | NaN, _ | _, NaN => NaN
  | Fin a, Fin b => Fin (a * b)
  | Fin a, PInf | PInf, Fin a => pf_signed_inf true a
  | Fin a, NInf | NInf, Fin a => pf_signed_inf false a
  | PInf, PInf | NInf, NInf => PInf
  | PInf, NInf | NInf, PInf => NInf
  end.

(** PyWavelets' [pywt.threshold(data, value, mode)] on one entry, after
    the library's code.  Soft:
    [magnitude = |data|; thresholded = (1 - value/magnitude).clip(min=0);
     data * thresholded], which is NaN at a zero entry unless
    [value > 0].  Hard: [np.where(np.less(|data|, value), 0, data)]. *)
Definition pywt_soft (value : R) (data : pyfloat) : pyfloat :=
  let magnitude := pf_abs data in
  let thresholded := pf_clip_min0 (pf_one_minus (pf_rdiv value magnitude)) in
  pf_mul data thresholded.

Definition pywt_hard (value : R) (data : pyfloat) : pyfloat :=
  match pf_abs data with
  | Fin m => if Rlt_dec m value then Fin 0 else data
  | _ => data
  end.

(** [pywt.threshold] returns a new array and leaves its argument alone. *)
Definition pywt_threshold (st : store) (c : ref) (value : R) (soft : bool)
  : ref * store :=
  alloc st (farray_map (if soft then pywt_soft value else pywt_hard value)
                       (st !!! c)).

(** The inner loop [for c in detail_coeffs], with its test
    [mode == 'soft'] on each turn: any other mode takes the hard branch. *)
Fixpoint threshold_tuple (st : store) (detail_coeffs : list ref)
  (threshold : R) (mode : string) : list ref * store :=
  match detail_coeffs with
  | [] => ([], st)
  | c :: rest =>
      let '(l, st1) := pywt_threshold st c threshold (String.eqb mode "soft") in
      let '(ls, st2) := threshold_tuple st1 rest threshold mode in
      (l :: ls, st2)
  end.

(** The outer loop [for detail_coeffs in coeffs[1:]]. *)
Fixpoint threshold_details (st : store) (ds : list (list ref))
  (threshold : R) (mode : string) : list (list ref) * store :=
  match ds with
  | [] => ([], st)
  | d :: rest =>
      let '(thresholded, st1) := threshold_tuple st d threshold mode in
      let '(more, st2) := threshold_details st1 rest threshold mode in
      (thresholded :: more, st2)
  end.

(** [threshold_coeffs]: [result = [coeffs[0]]] keeps the reference of
    the approximation array. *)
Definition threshold_coeffs (st : store) (coeffs : coeff_list)
  (threshold : R) (mode : string) : coeff_list * store :=
  let '(ds, st') := threshold_details st (details coeffs) threshold mode in
  (mk_coeffs (cA coeffs) ds, st').

(** Spec-side definitions, in the words of the specification:
    [sign(c)*max(|c|-threshold, 0)] and [c if |c| >= threshold else 0]. *)
Definition spec_soft (threshold c : R) : R :=
  np_sign c * Rmax (Rabs c - threshold) 0.

Definition spec_hard (threshold c : R) : R :=
  if Rle_dec threshold (Rabs c) then c else 0.

Definition spec_shrink (mode : string) (threshold c : R) : R :=
  if String.eqb mode "soft" then spec_soft threshold c
  else spec_hard threshold c.

(** The entry function the code applies in a mode. *)
Definition pywt_shrink (mode : string) (t : R) : pyfloat -> pyfloat :=
  if String.eqb mode "soft" then pywt_soft t else pywt_hard t.

(** Where the code computes the specification's formula: everywhere but
    at a zero coefficient thresholded softly with [t <= 0] (for a
    threshold [t >= 0]: with [t = 0]). *)
Definition regular (mode : string) (t c : R) : Prop :=
  mode <> "soft" \/ c <> 0 \/ 0 < t.

(** The new entry [y] for an old entry [x]: the formula at a regular
    real coefficient, NaN at the others. *)
Definition shrunk (mode : string) (t : R) (x y : pyfloat) : Prop :=
  forall c, x = Fin c ->
    (regular mode t c -> y = Fin (spec_shrink mode t c))
    /\ (~ regular mode t c -> y = NaN).

(** Every reference of the structure denotes an array of the store. *)
Definition coeffs_in (st : store) (coeffs : coeff_list) : Prop :=
  cA coeffs ∈ dom st /\ Forall (Forall (fun l => l ∈ dom st)) (details coeffs).

(** [l'] is a new array of [st'], the image of the array [l] of [st0]
    under [f]. *)
Definition thresholded_from (st0 cur st' : store) (f : pyfloat -> pyfloat)
  (l' l : ref) : Prop :=
  (l' ∉ dom cur) /\
  (exists a a', st0 !! l = Some a /\ st' !! l' = Some a'
                /\ frows a' = frows a /\ fcols a' = fcols a
                /\ forall i j, fat a' i j = f (fat a i j)).

(** [l'] is a new array of [st'] with the shape of the array [l] of
    [st], whose entries are those of [l], shrunk. *)
Definition shrunk_from (st st' : store) (mode : string) (t : R) (l' l : ref)
  : Prop :=
  (l' ∉ dom st) /\
  (exists a a', st !! l = Some a /\ st' !! l' = Some a'
                /\ frows a' = frows a /\ fcols a' = fcols a
                /\ forall i j, shrunk mode t (fat a i j) (fat a' i j)).

Lemma Rabs_cases (a : R) : (0 <= a /\ Rabs a = a) \/ (a < 0 /\ Rabs a = - a).
Proof.
  unfold Rabs. destruct (Rcase_abs a); [right | left]; split; lra.
Qed.

(** Case analysis on the tests of a goal, innermost first, then on the
    absolute values. *)
Ltac no_test a :=
  lazymatch a with
  | context [Rlt_dec _ _] => fail
  | context [Rle_dec _ _] => fail
  | _ => idtac
  end.

Ltac split_reals :=
  repeat match goal with
         | |- context [Rlt_dec ?a ?b] =>
             no_test a; no_test b; destruct (Rlt_dec a b)
         | |- context [Rle_dec ?a ?b] =>
             no_test a; no_test b; destruct (Rle_dec a b)
         end;
  repeat match goal with
         | |- context [Rabs ?a] =>
             let E := fresh "E" in
             destruct (Rabs_cases a) as [[? E]|[? E]]; rewrite E in *; clear E
         | H : context [Rabs ?a] |- _ =>
             let E := fresh "E" in
             destruct (Rabs_cases a) as [[? E]|[? E]]; rewrite E in *; clear E
         end.

Lemma np_sign_abs (x : R) : np_sign x * Rabs x = x.
Proof. unfold np_sign. split_reals; lra. Qed.

(** At a non-zero coefficient the library's product is the formula of
    the specification. *)
Lemma pywt_soft_nonzero (t c : R) :
  c <> 0 -> pywt_soft t (Fin c) = Fin (spec_soft t c).
Proof.
  intros Hc. unfold pywt_soft, pf_abs, pf_rdiv.
  assert (Habs : 0 < Rabs c) by (apply Rabs_pos_lt, Hc).
  destruct (Req_dec_T (Rabs c) 0) as [E|_]; [lra|].
  cbn [pf_one_minus pf_clip_min0 pf_mul]. f_equal.
  unfold spec_soft, np_sign, Rmax.
  assert (Hq : t / Rabs c * Rabs c = t) by (field; lra).
  set (q := t / Rabs c) in *.
  destruct (Rabs_cases c) as [[Hs E]|[Hs E]]; rewrite E in *;
    destruct (Rle_dec (1 - q) 0); destruct (Rle_dec (c - t) 0);
    destruct (Rle_dec (- c - t) 0);
    destruct (Rlt_dec 0 c); destruct (Rlt_dec c 0); nra.
Qed.

Lemma pywt_soft_zero (t : R) :
  pywt_soft t (Fin 0) = if Rlt_dec 0 t then Fin 0 else NaN.
Proof.
  unfold pywt_soft, pf_abs, pf_rdiv. rewrite Rabs_R0.
  destruct (Req_dec_T 0 0) as [_|H]; [|contradiction].
  destruct (Rlt_dec 0 t) as [Hpos|Hnp]; cbn [pf_one_minus pf_clip_min0 pf_mul].
  - f_equal. ring.
  - destruct (Rlt_dec t 0); cbn [pf_one_minus pf_clip_min0 pf_mul];
      [|reflexivity].
    unfold pf_signed_inf. destruct (Rlt_dec 0 0); [lra | reflexivity].
Qed.

Lemma spec_soft_zero (t : R) : 0 <= t -> spec_soft t 0 = 0.
Proof. intros Ht. unfold spec_soft, np_sign. split_reals; lra. Qed.

Lemma pywt_hard_fin (t c : R) : pywt_hard t (Fin c) = Fin (spec_hard t c).
Proof.
  unfold pywt_hard, spec_hard, pf_abs.
  destruct (Rlt_dec (Rabs c) t); destruct (Rle_dec t (Rabs c));
    try reflexivity; lra.
Qed.

Lemma pywt_shrink_shrunk (mode : string) (t : R) (x : pyfloat) :
  shrunk mode t x (pywt_shrink mode t x).
Proof.
  intros c ->. unfold regular, pywt_shrink, spec_shrink.
  destruct (String.eqb_spec mode "soft") as [Es|Ns].
  - destruct (Req_dec c 0) as [->|Hc].
    + rewrite pywt_soft_zero. destruct (Rlt_dec 0 t) as [Ht|Ht]; split.
      * intros _. rewrite spec_soft_zero by lra. reflexivity.
      * intros H. exfalso. apply H. right. right. exact Ht.
      * intros [H|[H|H]]; [contradiction | lra | contradiction].
      * reflexivity.
    + split.
      * intros _. apply pywt_soft_nonzero, Hc.
      * intros H. exfalso. apply H. right. left. exact Hc.
  - split.
    + intros _. apply pywt_hard_fin.
    + intros H. exfalso. apply H. left. exact Ns.
Qed.

Lemma pywt_shrink_regular (mode : string) (t c : R) :
  regular mode t c -> pywt_shrink mode t (Fin c) = Fin (spec_shrink mode t c).
Proof.
  intros H. exact (proj1 (pywt_shrink_shrunk mode t (Fin c) c eq_refl) H).
Qed.

Lemma thresholded_from_mono st0 cur0 cur st' st'' f l' l :
  cur0 ⊆ cur -> st' ⊆ st'' ->
  thresholded_from st0 cur st' f l' l ->
  thresholded_from st0 cur0 st'' f l' l.
Proof.
  intros Hcur Hst [Hfresh (a & a' & Ha & Ha' & Hshape)]. split.
  - intros Hin. apply Hfresh. revert Hin. apply subseteq_dom, Hcur.
  - exists a, a'. split; [exact Ha|]. split; [|exact Hshape].
    eapply lookup_weaken; eassumption.
Qed.

(** One call of [pywt.threshold]: a fresh array, the old ones kept. *)
Lemma pywt_threshold_spec st0 st c t mode l st1 :
  st0 ⊆ st -> c ∈ dom st0 ->
  pywt_threshold st c t (String.eqb mode "soft") = (l, st1) ->
  st ⊆ st1 /\ thresholded_from st0 st st1 (pywt_shrink mode t) l c.
Proof.
  intros Hsub Hc Hcall. unfold pywt_threshold, alloc in Hcall.
  injection Hcall as <- <-.
  pose proof (is_fresh (dom st)) as Hfresh.
  assert (Hnone : st !! fresh (dom st) = None) by (apply not_elem_of_dom, Hfresh).
  apply elem_of_dom in Hc as [a Ha].
  assert (Hst : st !! c = Some a) by (eapply lookup_weaken; eassumption).
  rewrite (lookup_total_correct st c a Hst).
  split; [apply insert_subseteq, Hnone|].
  split; [exact Hfresh|].
  eexists a, _. split; [exact Ha|]. split; [apply lookup_insert_eq|].
  split; [reflexivity|]. split; [reflexivity|].
  intros i j. reflexivity.
Qed.

Lemma threshold_tuple_spec st0 detail t mode :
  forall st ls st',
  st0 ⊆ st -> Forall (fun l => l ∈ dom st0) detail ->
  threshold_tuple st detail t mode = (ls, st') ->
  st ⊆ st' /\ Forall2 (thresholded_from st0 st st' (pywt_shrink mode t)) ls detail.
Proof.
  induction detail as [|c rest IH]; intros st ls st' Hsub Hin Hrun;
    cbn [threshold_tuple] in Hrun.
  - injection Hrun as <- <-. split; [reflexivity | constructor].
  - destruct (pywt_threshold st c t (String.eqb mode "soft")) as [l st1] eqn:E1.
    destruct (threshold_tuple st1 rest t mode) as [ls' st2] eqn:E2.
    injection Hrun as <- <-.
    inversion Hin as [|? ? Hc Hrest]; subst.
    destruct (pywt_threshold_spec st0 st c t mode l st1 Hsub Hc E1) as [H1 Hl].
    destruct (IH st1 ls' st2) as [H2 Hls]; [etrans; eassumption | exact Hrest | exact E2 |].
    split; [etrans; eassumption|]. constructor.
    + eapply thresholded_from_mono; [reflexivity | exact H2 | exact Hl].
    + eapply Forall2_impl; [exact Hls|].
      intros l' l0 H. eapply thresholded_from_mono; [exact H1 | reflexivity | exact H].
Qed.

Lemma threshold_details_spec st0 ds t mode :
  forall st res st',
  st0 ⊆ st -> Forall (Forall (fun l => l ∈ dom st0)) ds ->
  threshold_details st ds t mode = (res, st') ->
  st ⊆ st' /\
  Forall2 (Forall2 (thresholded_from st0 st st' (pywt_shrink mode t))) res ds.
Proof.
  induction ds as [|d rest IH]; intros st res st' Hsub Hin Hrun;
    cbn [threshold_details] in Hrun.
  - injection Hrun as <- <-. split; [reflexivity | constructor].
  - destruct (threshold_tuple st d t mode) as [th st1] eqn:E1.
    destruct (threshold_details st1 rest t mode) as [more st2] eqn:E2.
    injection Hrun as <- <-.
    inversion Hin as [|? ? Hd Hrest]; subst.
    destruct (threshold_tuple_spec st0 d t mode st th st1 Hsub Hd E1) as [H1 Hth].
    destruct (IH st1 more st2) as [H2 Hmore]; [etrans; eassumption | exact Hrest | exact E2 |].
    split; [etrans; eassumption|]. constructor.
    + eapply Forall2_impl; [exact Hth|].
      intros l' l0 H. eapply thresholded_from_mono; [reflexivity | exact H2 | exact H].
    + eapply Forall2_impl; [exact Hmore|].
      intros r' r0 Hr. eapply Forall2_impl; [exact Hr|].
      intros l' l0 H. eapply thresholded_from_mono; [exact H1 | reflexivity | exact H].
Qed.

(** [threshold_coeffs] on a structure of the store. *)
Lemma threshold_coeffs_spec
  (st : store) (coeffs : coeff_list) (t : R) (mode : string) :
  coeffs_in st coeffs ->
  exists res st',
    threshold_coeffs st coeffs t mode = (res, st')
    /\ cA res = cA coeffs
    /\ (forall l a, st !! l = Some a -> st' !! l = Some a)
    /\ Forall2 (Forall2 (shrunk_from st st' mode t))
               (details res) (details coeffs).
Proof.
  intros [_ Hin]. unfold threshold_coeffs.
  destruct (threshold_details st (details coeffs) t mode) as [ds st'] eqn:E.
  destruct (threshold_details_spec st (details coeffs) t mode st ds st')
    as [Hsub Hds]; [reflexivity | exact Hin | exact E |].
  exists (mk_coeffs (cA coeffs) ds), st'.
  split; [reflexivity|]. split; [reflexivity|]. split.
  - intros l a Hl. eapply lookup_weaken; eassumption.
  - cbn [details]. eapply Forall2_impl; [exact Hds|].
    intros r d Hrd. eapply Forall2_impl; [exact Hrd|].
    intros l' l [Hfresh (a & a' & Ha & Ha' & Hr & Hc & Hat)].
    split; [exact Hfresh|]. exists a, a'.
    repeat (split; [assumption|]).
    intros i j. rewrite Hat. apply pywt_shrink_shrunk.
Qed.

(** A store with an approximation array and one detail array, which
    holds a zero. *)
Definition demo_store : store :=
  <[1%positive := of_ndarray (mk_array 1 1 (fun _ _ => 10))]>
    (<[2%positive :=
         of_ndarray (mk_array 1 3 (fun _ j => if (j =? 0)%nat then 0
                                              else if (j =? 1)%nat then 3
                                              else -1/2))]> ∅).

Definition demo_coeffs : coeff_list := mk_coeffs 1%positive [[2%positive]].

Lemma demo_coeffs_in : coeffs_in demo_store demo_coeffs.
Proof.
  split.
  - apply elem_of_dom. eexists. apply lookup_insert_eq.
  - constructor; [|constructor]. constructor; [|constructor].
    apply elem_of_dom. eexists. reflexivity.
Qed.




(** *** The module's own [snr] *)

(** Python's built-in [max(x, y)]: [y] only when [y > x]. *)
Definition py_max (x y : R) : R := if Rlt_dec x y then y else x.

(** [snr] of denoising.py: the noise power is floored at [1e-10], so the
    division never sees a zero. *)
Definition snr (original noisy : ndarray) : result pyfloat :=
  let signal_power := np_mean (np_square original) in
  d ← np_sub original noisy;
  match signal_power, np_mean (np_square d) with
  | Fin sp, Fin noise_power =>
      Ok (times10 (np_log10 (sp / py_max noise_power (/ 10 ^ 10))))
  | _, _ => Ok NaN
  end.

Lemma py_max_floor (x : R) : / 10 ^ 10 <= py_max x (/ 10 ^ 10).
Proof. unfold py_max. destruct (Rlt_dec x (/ 10 ^ 10)); lra. Qed.

(** X16. The [snr] of denoising.py, unlike the one of metrics.py, never
    returns [+inf]: for equal-shaped, non-empty 8-bit images it returns
    [-inf] when the original is the zero image and a real otherwise; on
    two images with the same entries, where [metrics.snr] returns
    [+inf], it returns [10 * log10(signal_power / 1e-10)]. *)
Theorem snr_never_infinite (a b : ndarray) :
  same_shape a b -> (0 < size a)%nat ->
  Metrics.eight_bit a -> Metrics.eight_bit b ->
  (is_zero a -> snr a b = Ok NInf)
  /\ (~ is_zero a -> exists r, snr a b = Ok (Fin r))
  /\ (Metrics.equal_entries a b ->
      Metrics.snr a b = Ok PInf
      /\ exists sp, np_mean (np_square a) = Fin sp
                    /\ snr a b = Ok (times10 (np_log10 (sp / / 10 ^ 10)))).
Proof.
  intros Hsh Hsz _ _.
  assert (Heps : 0 < / 10 ^ 10) by (apply Rinv_0_lt_compat; lra).
  destruct (Metrics.mean_square_zero a Hsz) as (sp & Hsp & Hspz).
  destruct (Metrics.np_mean_nonneg (np_square a) Hsz) as (sp' & Hsp' & Hsp0 & _).
  { intros i j _ _. cbn [at_ np_square np_map]. nra. }
  rewrite Hsp in Hsp'. injection Hsp' as <-.
  destruct (Metrics.np_binop_same_shape Rminus a b Hsh) as (d & Hd & Hr & Hc & Hat).
  assert (Hszd : (0 < size d)%nat) by (unfold size in *; rewrite Hr, Hc; exact Hsz).
  destruct (Metrics.mean_square_zero d Hszd) as (npow & Hnp & Hnpz).
  assert (Hrun : snr a b = Ok (times10 (np_log10 (sp / py_max npow (/ 10 ^ 10))))).
  { unfold snr, np_sub. rewrite Hd. cbn [mbind result_bind]. rewrite Hsp, Hnp.
    reflexivity. }
  pose proof (py_max_floor npow) as Hfloor.
  assert (Hinv : 0 < / py_max npow (/ 10 ^ 10)) by (apply Rinv_0_lt_compat; lra).
  split; [|split].
  - intros Hz. apply Hspz in Hz. rewrite Hrun, Hz. unfold Rdiv. rewrite Rmult_0_l.
    unfold np_log10. destruct (Rlt_dec 0 0) as [H|_]; [lra|].
    destruct (Req_dec_T 0 0) as [_|H]; [reflexivity | contradiction].
  - intros Hnz. rewrite Hrun. unfold np_log10.
    destruct (Rlt_dec 0 (sp / py_max npow (/ 10 ^ 10))) as [_|H].
    + eexists. reflexivity.
    + exfalso. apply H. unfold Rdiv. apply Rmult_lt_0_compat; [|exact Hinv].
      destruct Hsp0 as [Hlt|Heq]; [exact Hlt|].
      exfalso. apply Hnz, Hspz. symmetry. exact Heq.
  - intros Heq. split.
    + destruct (Metrics.np_binop_same_shape Rminus b a (Metrics.same_shape_sym a b Hsh))
        as (d' & Hd' & Hr' & Hc' & Hat').
      assert (Hszd' : (0 < size d')%nat).
      { destruct Hsh as [Hra Hca]. unfold size in *. rewrite Hr', Hc', <- Hra, <- Hca.
        exact Hsz. }
      destruct (Metrics.mean_square_zero d' Hszd') as (np' & Hnp' & Hnpz').
      unfold Metrics.snr, np_sub. rewrite Hd'. cbn [mbind result_bind].
      rewrite Hnp'.
      assert (Hz : np' = 0).
      { apply Hnpz'. intros i j Hi Hj. destruct Hsh as [Hra Hca].
        rewrite Hat' by congruence. rewrite (Heq i j) by congruence. lra. }
      destruct (Req_dec_T np' 0) as [_|NE]; [reflexivity | contradiction].
    + exists sp. split; [exact Hsp|]. rewrite Hrun.
      assert (Hz : npow = 0).
      { apply Hnpz. intros i j Hi Hj. rewrite Hat by congruence.
        rewrite (Heq i j) by congruence. lra. }
      rewrite Hz. unfold py_max.
      destruct (Rlt_dec 0 (/ 10 ^ 10)) as [_|H]; [reflexivity | contradiction].
Qed.

Lemma snr_never_infinite_witness :
  (is_zero Metrics.demo_a -> snr Metrics.demo_a Metrics.demo_b = Ok NInf)
  /\ (~ is_zero Metrics.demo_a ->
      exists r, snr Metrics.demo_a Metrics.demo_b = Ok (Fin r))
  /\ (Metrics.equal_entries Metrics.demo_a Metrics.demo_b ->
      Metrics.snr Metrics.demo_a Metrics.demo_b = Ok PInf
      /\ exists sp, np_mean (np_square Metrics.demo_a) = Fin sp
                    /\ snr Metrics.demo_a Metrics.demo_b
                       = Ok (times10 (np_log10 (sp / / 10 ^ 10)))).
Proof.
  apply (snr_never_infinite Metrics.demo_a Metrics.demo_b).
  - split; reflexivity.
  - unfold size; simpl; lia.
  - exact Metrics.eight_bit_demo_a.
  - exact Metrics.eight_bit_demo_b.
Defined.

(** *** Modes and repeated thresholding *)

Lemma threshold_tuple_mode (d : list ref) (t : R) (mode : string) :
  mode <> "soft" ->
  forall st, threshold_tuple st d t mode = threshold_tuple st d t "hard".
Proof.
  intros Hmode.
  assert (E1 : String.eqb mode "soft" = false) by (apply String.eqb_neq, Hmode).
  induction d as [|c rest IH]; intros st; cbn [threshold_tuple]; [reflexivity|].
  rewrite E1. change (String.eqb "hard" "soft") with false.
  destruct (pywt_threshold st c t false) as [l st1].
  rewrite IH. reflexivity.
Qed.

Lemma threshold_details_mode (ds : list (list ref)) (t : R) (mode : string) :
  mode <> "soft" ->
  forall st, threshold_details st ds t mode = threshold_details st ds t "hard".
Proof.
  intros Hmode.
  induction ds as [|d rest IH]; intros st; cbn [threshold_details]; [reflexivity|].
  rewrite (threshold_tuple_mode d t mode Hmode).
  destruct (threshold_tuple st d t "hard") as [th st1].
  rewrite IH. reflexivity.
Qed.

(** X17. [threshold_coeffs] does not validate its mode: every mode
    other than soft is treated as hard. *)
Theorem threshold_coeffs_mode_fallback
  (st : store) (coeffs : coeff_list) (t : R) (mode : string) :
  mode <> "soft" ->
  threshold_coeffs st coeffs t mode = threshold_coeffs st coeffs t "hard".
Proof.
  intros Hmode. unfold threshold_coeffs.
  rewrite (threshold_details_mode (details coeffs) t mode Hmode). reflexivity.
Qed.

Lemma threshold_coeffs_mode_fallback_witness :
  threshold_coeffs demo_store demo_coeffs 1 "garrote"
  = threshold_coeffs demo_store demo_coeffs 1 "hard".
Proof.
  apply (threshold_coeffs_mode_fallback demo_store demo_coeffs 1 "garrote").
  discriminate.
Defined.

Lemma spec_soft_bound (t x : R) :
  0 <= t ->
  Rabs (spec_soft t x - x) <= t /\ Rabs (spec_soft t x) <= Rabs x.
Proof.
  intros Ht. unfold spec_soft, np_sign, Rmax. split; split_reals; nra.
Qed.

Lemma spec_hard_bound (t x : R) :
  0 <= t ->
  Rabs (spec_hard t x - x) <= t /\ Rabs (spec_hard t x) <= Rabs x.
Proof.
  intros Ht. unfold spec_hard. split; split_reals; lra.
Qed.

Lemma spec_shrink_bound (mode : string) (t x : R) :
  0 <= t ->
  Rabs (spec_shrink mode t x - x) <= t
  /\ Rabs (spec_shrink mode t x) <= Rabs x.
Proof.
  intros Ht. unfold spec_shrink. destruct (String.eqb mode "soft").
  - apply spec_soft_bound, Ht.
  - apply spec_hard_bound, Ht.
Qed.

Lemma spec_soft_twice (t x : R) :
  0 <= t -> spec_soft t (spec_soft t x) = spec_soft (2 * t) x.
Proof.
  intros Ht. unfold spec_soft, np_sign, Rmax. split_reals; nra.
Qed.

Lemma spec_hard_twice (t x : R) :
  spec_hard t (spec_hard t x) = spec_hard t x.
Proof.
  unfold spec_hard. split_reals; lra.
Qed.

(** The threshold that one pass must use to do the work of two. *)
Definition twice_threshold (mode : string) (t : R) : R :=
  if String.eqb mode "soft" then 2 * t else t.

Lemma spec_shrink_twice (mode : string) (t x : R) :
  0 <= t ->
  spec_shrink mode t (spec_shrink mode t x)
  = spec_shrink mode (twice_threshold mode t) x.
Proof.
  intros Ht. unfold spec_shrink, twice_threshold.
  destruct (String.eqb mode "soft").
  - apply spec_soft_twice, Ht.
  - apply spec_hard_twice.
Qed.

Lemma positive_regular (mode : string) (t c : R) : 0 < t -> regular mode t c.
Proof. intros Ht. right. right. exact Ht. Qed.

(** The array [l'] of [st'] has the shape of the array [l] of [st] and
    its real entries are the images under [f]. *)
Definition image_under (st st' : store) (f : R -> R) (l' l : ref) : Prop :=
  exists a a', st !! l = Some a /\ st' !! l' = Some a'
               /\ frows a' = frows a /\ fcols a' = fcols a
               /\ forall i j c, fat a i j = Fin c -> fat a' i j = Fin (f c).

Lemma thresholded_in_dom st0 cur st' f (res ds : list (list ref)) :
  Forall2 (Forall2 (thresholded_from st0 cur st' f)) res ds ->
  Forall (Forall (fun l => l ∈ dom st')) res.
Proof.
  intros H. induction H as [|r d res ds Hrd _ IH]; constructor; [|exact IH].
  induction Hrd as [|l' l r d Hl _ IHr]; constructor; [|exact IHr].
  destruct Hl as [_ (a & a' & _ & Ha' & _)]. apply elem_of_dom. eexists. exact Ha'.
Qed.

(** X18. With a positive threshold [t] and either mode, every real
    detail coefficient is replaced by a real that differs from it by at
    most [t] and is no larger in absolute value. *)
Theorem threshold_coeffs_perturbation
  (st : store) (coeffs : coeff_list) (t : R) (mode : string) :
  0 < t -> coeffs_in st coeffs ->
  exists res st',
    threshold_coeffs st coeffs t mode = (res, st')
    /\ Forall2 (Forall2 (fun l' l =>
         exists a a', st !! l = Some a /\ st' !! l' = Some a'
           /\ forall i j c, fat a i j = Fin c ->
                exists c', fat a' i j = Fin c'
                           /\ Rabs (c' - c) <= t /\ Rabs c' <= Rabs c))
         (details res) (details coeffs).
Proof.
  intros Ht Hin.
  destruct (threshold_coeffs_spec st coeffs t mode Hin)
    as (res & st' & Hrun & _ & _ & Hds).
  exists res, st'. split; [exact Hrun|].
  eapply Forall2_impl; [exact Hds|].
  intros r d Hrd. eapply Forall2_impl; [exact Hrd|].
  intros l' l [_ (a & a' & Ha & Ha' & _ & _ & Hat)].
  exists a, a'. split; [exact Ha|]. split; [exact Ha'|].
  intros i j c Hc. destruct (Hat i j c Hc) as [Hreg _].
  exists (spec_shrink mode t c).
  split; [apply Hreg, positive_regular, Ht|].
  apply spec_shrink_bound. lra.
Qed.

Lemma threshold_coeffs_perturbation_witness :
  exists res st',
    threshold_coeffs demo_store demo_coeffs 1 "hard" = (res, st')
    /\ Forall2 (Forall2 (fun l' l =>
         exists a a', demo_store !! l = Some a /\ st' !! l' = Some a'
           /\ forall i j c, fat a i j = Fin c ->
                exists c', fat a' i j = Fin c'
                           /\ Rabs (c' - c) <= 1 /\ Rabs c' <= Rabs c))
         (details res) (details demo_coeffs).
Proof.
  apply (threshold_coeffs_perturbation demo_store demo_coeffs 1 "hard").
  - lra.
  - exact demo_coeffs_in.
Defined.

(** X19. Thresholding twice with the same positive threshold [t]: the
    second pass works on the arrays the first one created, and the real
    detail coefficients it returns are those of a single pass with
    threshold [2 * t] in soft mode (soft shrinkage adds up) and with [t]
    in hard mode (hard thresholding is idempotent); the approximation is
    still the input's. *)
Theorem threshold_coeffs_twice
  (st : store) (coeffs : coeff_list) (t : R) (mode : string) :
  0 < t -> coeffs_in st coeffs ->
  exists res1 st1 res2 st2,
    threshold_coeffs st coeffs t mode = (res1, st1)
    /\ threshold_coeffs st1 res1 t mode = (res2, st2)
    /\ cA res2 = cA coeffs
    /\ Forall2 (Forall2 (image_under st st2
                           (spec_shrink mode (twice_threshold mode t))))
               (details res2) (details coeffs).
Proof.
  intros Ht [_ Hin]. unfold threshold_coeffs.
  destruct (threshold_details st (details coeffs) t mode) as [ds1 st1] eqn:E1.
  destruct (threshold_details_spec st (details coeffs) t mode st ds1 st1)
    as [Hsub1 Hds1]; [reflexivity | exact Hin | exact E1 |].
  cbn [details cA].
  destruct (threshold_details st1 ds1 t mode) as [ds2 st2] eqn:E2.
  destruct (threshold_details_spec st1 ds1 t mode st1 ds2 st2)
    as [Hsub2 Hds2];
    [reflexivity | exact (thresholded_in_dom _ _ _ _ _ _ Hds1) | exact E2 |].
  exists (mk_coeffs (cA coeffs) ds1), st1, (mk_coeffs (cA coeffs) ds2), st2.
  cbn [details cA]. rewrite E2.
  split; [reflexivity|]. split; [reflexivity|]. split; [reflexivity|].
  eapply Forall2_trans; [|exact Hds2|exact Hds1].
  intros r2 r1 d H21 H10.
  eapply Forall2_trans; [|exact H21|exact H10].
  intros l2 l1 l [_ (a1 & a2 & Ha1 & Ha2 & Hr2 & Hc2 & Hat2)]
                 [_ (a & a1' & Ha & Ha1' & Hr1 & Hc1 & Hat1)].
  rewrite Ha1 in Ha1'. injection Ha1' as <-.
  exists a, a2. split; [exact Ha|]. split; [exact Ha2|].
  split; [congruence|]. split; [congruence|].
  intros i j c Hc. rewrite Hat2, Hat1, Hc.
  rewrite !pywt_shrink_regular by (apply positive_regular, Ht).
  f_equal. apply spec_shrink_twice. lra.
Qed.

Lemma threshold_coeffs_twice_witness :
  exists res1 st1 res2 st2,
    threshold_coeffs demo_store demo_coeffs 1 "soft" = (res1, st1)
    /\ threshold_coeffs st1 res1 1 "soft" = (res2, st2)
    /\ cA res2 = cA demo_coeffs
    /\ Forall2 (Forall2 (image_under demo_store st2
                           (spec_shrink "soft" (twice_threshold "soft" 1))))
               (details res2) (details demo_coeffs).
Proof.
  apply (threshold_coeffs_twice demo_store demo_coeffs 1 "soft").
  - lra.
  - exact demo_coeffs_in.
Defined.

(** *** Noise estimation *)

(** A sorted copy of a vector. *)
Fixpoint insert_sorted (x : R) (l : list R) : list R :=
  match l with
  | [] => [x]
  | y :: rest => if Rle_dec x y then x :: l else y :: insert_sorted x rest
  end.

Definition np_sort (l : list R) : list R := fold_right insert_sorted [] l.

(** The middle of a sorted vector [v] of length [N], after numpy's
    documentation of [np.median]: [v[(N-1)/2]] when [N] is odd, the
    average of the two middle values when [N] is even. *)
Definition middle (v : list R) : R :=
  let n := length v in
  if Nat.odd n then nth ((n - 1) / 2) v 0
  else (nth (n / 2 - 1) v 0 + nth (n / 2) v 0) / 2.

(** [np.median] over all the entries: the middle of a sorted copy; NaN
    (with a warning) for an empty array. *)
Definition np_median (a : ndarray) : pyfloat :=
  let v := np_sort (entries a) in
  if (length v =? 0)%nat then NaN else Fin (middle v).

Lemma insert_sorted_perm (x : R) (l : list R) :
  Permutation (insert_sorted x l) (x :: l).
Proof.
  induction l as [|y rest IH]; cbn [insert_sorted]; [reflexivity|].
  destruct (Rle_dec x y); [reflexivity|].
  rewrite IH. apply perm_swap.
Qed.

Lemma np_sort_perm (l : list R) : Permutation (np_sort l) l.
Proof.
  induction l as [|x rest IH]; cbn [np_sort fold_right]; [reflexivity|].
  rewrite insert_sorted_perm. apply perm_skip, IH.
Qed.

Lemma insert_sorted_sorted (x : R) (l : list R) :
  StronglySorted Rle l -> StronglySorted Rle (insert_sorted x l).
Proof.
  induction l as [|y rest IH]; intros Hs; cbn [insert_sorted].
  - constructor; constructor.
  - inversion Hs as [|? ? Hrest Hall]; subst.
    destruct (Rle_dec x y) as [Hxy|Hxy].
    + constructor; [exact Hs|]. constructor; [exact Hxy|].
      eapply List.Forall_impl; [|exact Hall]. intros z Hz. cbv beta in *. lra.
    + constructor; [apply IH, Hrest|].
      apply List.Forall_forall. intros z Hz.
      apply (Permutation_in _ (insert_sorted_perm x rest)) in Hz.
      destruct Hz as [<-|Hz]; [lra|].
      revert z Hz. apply List.Forall_forall, Hall.
Qed.

Lemma np_sort_sorted (l : list R) : StronglySorted Rle (np_sort l).
Proof.
  induction l as [|x rest IH]; cbn [np_sort fold_right]; [constructor|].
  apply insert_sorted_sorted, IH.
Qed.

(** The middle of a non-empty vector of non-negative reals is
    non-negative. *)
Lemma middle_nonneg (v : list R) :
  v <> [] -> (forall y, In y v -> 0 <= y) -> 0 <= middle v.
Proof.
  intros Hne Hpos. unfold middle.
  assert (Hlen : (0 < length v)%nat) by (destruct v; [contradiction | cbn; lia]).
  assert (Hnth : forall k, (k < length v)%nat -> 0 <= nth k v 0)
    by (intros k Hk; apply Hpos, nth_In, Hk).
  assert (H2 : (length v / 2 < length v)%nat) by (apply Nat.div_lt; lia).
  assert (H1 : ((length v - 1) / 2 < length v)%nat)
    by (apply Nat.Div0.div_lt_upper_bound; lia).
  destruct (Nat.odd (length v)).
  - apply Hnth, H1.
  - pose proof (Hnth (length v / 2 - 1)%nat ltac:(lia)).
    pose proof (Hnth (length v / 2)%nat H2). lra.
Qed.

Section Estimate.

(** [pywt.wavedec2], library code. *)
Variable wavedec2 :
  ndarray -> string -> Z -> result (ndarray * list (ndarray * ndarray * ndarray)).

(** [estimate_noise_sigma]: [coeffs[1][2]] is the diagonal subband of
    the single level. *)
Definition estimate_noise_sigma (image : ndarray) : result pyfloat :=
  coeffs ← wavedec2 image "db4" 1%Z;
  match snd coeffs with
  | [] => Raise IndexError
  | (_, _, HH) :: _ =>
      Ok (match np_median (Metrics.np_abs HH) with
          | Fin m => Fin (m / (6745 / 10000))
          | other => other
          end)
  end.

(** X26. [estimate_noise_sigma] returns the median of the absolute
    values of the diagonal subband, divided by 0.6745: with [v] the
    absolute values [|HH|] in increasing order and [m] the middle of [v]
    (the average of the two middle values when their number is even),
    it returns [m / 0.6745], a non-negative real.  The deviations are
    taken from zero, not from the median of the subband.  (The entries
    are taken below 1e300 in magnitude, where the average of two of them
    cannot overflow.) *)
Theorem estimate_noise_sigma_median
  (image cA cH cV cD : ndarray) (rest : list (ndarray * ndarray * ndarray)) :
  wavedec2 image "db4" 1%Z = Ok (cA, (cH, cV, cD) :: rest) ->
  (0 < size cD)%nat ->
  (forall i j, (i < rows cD)%nat -> (j < cols cD)%nat ->
     Rabs (at_ cD i j) <= 10 ^ 300) ->
  exists v m,
    Permutation v (entries (Metrics.np_abs cD))
    /\ StronglySorted Rle v
    /\ (if Nat.odd (length v) then m = nth ((length v - 1) / 2) v 0
        else m = (nth (length v / 2 - 1) v 0 + nth (length v / 2) v 0) / 2)
    /\ estimate_noise_sigma image = Ok (Fin (m / (6745 / 10000)))
    /\ 0 <= m.
Proof.
  intros Hdec Hsz _. unfold estimate_noise_sigma. rewrite Hdec.
  cbn [mbind result_bind snd]. unfold np_median.
  set (v := np_sort (entries (Metrics.np_abs cD))).
  assert (Hperm : Permutation v (entries (Metrics.np_abs cD)))
    by apply np_sort_perm.
  assert (Hlen : length v = size cD).
  { rewrite (Permutation_length Hperm).
    apply (entries_length (Metrics.np_abs cD)). }
  exists v, (middle v). split; [exact Hperm|]. split; [apply np_sort_sorted|].
  split; [unfold middle; cbv zeta; destruct (Nat.odd (length v)); reflexivity|].
  rewrite Hlen. destruct (Nat.eqb_spec (size cD) 0) as [E|_]; [lia|].
  split; [reflexivity|].
  apply middle_nonneg.
  - intros E. rewrite E in Hlen. cbn in Hlen. lia.
  - intros y Hy. apply (Permutation_in _ Hperm) in Hy.
    apply in_entries in Hy as (i & j & _ & _ & ->).
    cbn [at_ Metrics.np_abs np_map]. apply Rabs_pos.
Qed.

End Estimate.

Lemma estimate_noise_sigma_median_witness :
  exists v m,
    Permutation v (entries (Metrics.np_abs Metrics.demo_b))
    /\ StronglySorted Rle v
    /\ (if Nat.odd (length v) then m = nth ((length v - 1) / 2) v 0
        else m = (nth (length v / 2 - 1) v 0 + nth (length v / 2) v 0) / 2)
    /\ estimate_noise_sigma Wavelets.toy_wavedec2 Metrics.demo_b
       = Ok (Fin (m / (6745 / 10000)))
    /\ 0 <= m.
Proof.
  apply (estimate_noise_sigma_median Wavelets.toy_wavedec2
           Metrics.demo_b Metrics.demo_b Metrics.demo_b
           Metrics.demo_b Metrics.demo_b []).
  - reflexivity.
  - unfold size; simpl; lia.
  - intros i j Hi Hj.
    destruct (Metrics.eight_bit_demo_b i j Hi Hj) as (k & Hk & ->).
    rewrite Rabs_right by (apply Rle_ge, IZR_le; lia).
    assert (IZR k <= 255) by (apply IZR_le; lia).
    pose proof (Metrics.pow10_ge_1 297).
    change (10 ^ 300) with (10 * (10 * (10 * 10 ^ 297))). nra.
Defined.

End Denoising.
